(** * Workbench resources and embedded editor widgets

    A shallow embedding of
      - [src/vs/workbench/common/resources.ts]
        ([ResourceContextKey], [ResourceGlobMatcher]) and
      - [src/vs/editor/browser/widget/embeddedCodeEditorWidget.ts]
        ([EmbeddedCodeEditorWidget], [EmbeddedDiffEditorWidget]).

    Collaborators whose code lives elsewhere in the workbench (context-key
    service, URI, glob compiler, object helpers, path helpers, the editor
    base classes) are interfaces here: section variables or type classes,
    each with the contract the development relies on spelled out. *)

From Stdlib Require Import Ascii.
From stdpp Require Import base option list strings gmap fin_maps fin_sets.

#[local] Open Scope string_scope.
#[local] Open Scope list_scope.
#[local] Open Scope nat_scope.

(* ===================================================================== *)
(** * ResourceContextKey                                                  *)
(* ===================================================================== *)

Module ContextKeys.

(** The five [RawContextKey] statics of [ResourceContextKey]. *)
Inductive Key := Scheme | Filename | LangId | Resource | Extension.

#[export] Instance Key_eq_dec : EqDecision Key.
Proof. solve_decision. Defined.

(** The name each [RawContextKey] is created with. *)
Definition name (k : Key) : string :=
  match k with
  | Scheme => "resourceScheme"
  | Filename => "resourceFilename"
  | LangId => "resourceLangId"
  | Resource => "resource"
  | Extension => "resourceExtname"
  end.

(** Only [scheme] and [fsPath] of a URI are read by this class. *)
Record URI := { scheme : string; fsPath : string }.

(** What a context key can hold here: a string or the URI itself.  A key
    holding [undefined] (or a falsy [value] passed through [value && e])
    is [None]. *)
Inductive CtxValue := VString (s : string) | VUri (u : URI).

(** Every static is [new RawContextKey(name, undefined)]. *)
Definition defaultValue (k : Key) : option CtxValue := None.

(** One call made on a bound [IContextKey]. *)
Inductive Call := CallSet (k : Key) (v : option CtxValue) | CallReset (k : Key).

#[export] Instance URI_eq_dec : EqDecision URI.
Proof. solve_decision. Defined.
#[export] Instance CtxValue_eq_dec : EqDecision CtxValue.
Proof. solve_decision. Defined.
#[export] Instance Call_eq_dec : EqDecision Call.
Proof. solve_decision. Defined.

(** The context-key service behind [bindTo]: the [IContextKey] interface
    ([set], [reset], [get]) of the key named [name k], over service state
    [S]. *)
Class ContextKeyService (S : Type) := {
  ck_set : Key → option CtxValue → S → S;
  ck_reset : Key → S → S;
  ck_get : Key → S → option CtxValue;
}.

(** Contract of the service: keys are independent cells; [reset] restores
    the key's default. *)
Class ContextKeyServiceLaws (S : Type) `{ContextKeyService S} := {
  get_set k k' v s :
    ck_get k (ck_set k' v s) = if decide (k = k') then v else ck_get k s;
  get_reset k k' s :
    ck_get k (ck_reset k' s) =
      if decide (k = k') then defaultValue k else ck_get k s;
}.

(** The service state together with the calls made on the bound keys, in
    order (most recent last). *)
Record Bound (S : Type) := { svc : S; calls : list Call }.
Arguments svc {S} _.
Arguments calls {S} _.

Section ResourceContextKey.
Context {S : Type} `{ContextKeyService S}.

(** [basename], [paths.extname] and the mode service lookup. *)
Variable basename : string → string.
Variable extname : string → string.
Variable getModeIdByFilenameOrFirstLine : string → option string.

Definition key_set (k : Key) (v : option CtxValue) (b : Bound S) : Bound S :=
  {| svc := ck_set k v (svc b); calls := calls b ++ [CallSet k v] |}.

Definition key_reset (k : Key) (b : Bound S) : Bound S :=
  {| svc := ck_reset k (svc b); calls := calls b ++ [CallReset k] |}.

Definition key_get (k : Key) (b : Bound S) : option CtxValue :=
  ck_get k (svc b).

(** [set(value: URI)]; a falsy [value] is [None], and [value && e] is
    then [value] itself. *)
Definition set (value : option URI) (b : Bound S) : Bound S :=
  let b := key_set Resource (VUri <$> value) b in
  let b := key_set Scheme ((λ u, VString (scheme u)) <$> value) b in
  let b := key_set Filename ((λ u, VString (basename (fsPath u))) <$> value) b in
  let b := key_set LangId
             (value ≫= λ u, VString <$> getModeIdByFilenameOrFirstLine (fsPath u)) b in
  key_set Extension ((λ u, VString (extname (fsPath u))) <$> value) b.

(** [reset()]: five calls, none of them on the filename key. *)
Definition reset (b : Bound S) : Bound S :=
  let b := key_reset Scheme b in
  let b := key_reset LangId b in
  let b := key_reset Resource b in
  let b := key_reset LangId b in
  key_reset Extension b.

(** [get()] *)
Definition get (b : Bound S) : option CtxValue := key_get Resource b.

(** How often a call occurs in a call log. *)
Definition times (c : Call) (l : list Call) : nat :=
  length (filter (λ x, x = c) l).

End ResourceContextKey.

(** A concrete service: the context as a finite map from key names to
    values; [reset] of a key whose default is [undefined] removes it. *)
#[export] Instance map_service : ContextKeyService (gmap string CtxValue) := {
  ck_set k v s :=
    match v with Some x => <[name k := x]> s | None => delete (name k) s end;
  ck_reset k s :=
    match defaultValue k with
    | Some x => <[name k := x]> s
    | None => delete (name k) s
    end;
  ck_get k s := s !! name k;
}.

(** A path helper good enough to run examples: the part after the last
    slash. *)
Fixpoint after_last_slash (acc : string) (s : string) : string :=
  match s with
  | EmptyString => acc
  | String c rest =>
      if Ascii.eqb c "/"%char then after_last_slash rest rest
      else after_last_slash acc rest
  end.

Definition demo_basename (p : string) : string := after_last_slash p p.

(** And the part from the last dot on. *)
Fixpoint from_last_dot (acc : string) (s : string) : string :=
  match s with
  | EmptyString => acc
  | String c rest =>
      if Ascii.eqb c "."%char then from_last_dot s rest
      else from_last_dot acc rest
  end.

Definition demo_extname (p : string) : string := from_last_dot "" p.


(** ** Properties *)

Lemma name_inj k k' : name k = name k' → k = k'.
Proof. by destruct k, k'. Qed.

#[export] Instance map_service_laws : ContextKeyServiceLaws (gmap string CtxValue).
Proof.
  split.
  - intros k k' v s. cbn. case_decide as Hk.
    + subst. destruct v; [apply lookup_insert_eq | apply lookup_delete_eq].
    + assert (name k' ≠ name k) by (intros E; apply Hk; symmetry; by apply name_inj).
      destruct v; [by rewrite lookup_insert_ne | by rewrite lookup_delete_ne].
  - intros k k' s. cbn. case_decide as Hk.
    + subst. apply lookup_delete_eq.
    + assert (name k' ≠ name k) by (intros E; apply Hk; symmetry; by apply name_inj).
      by rewrite lookup_delete_ne.
Qed.

Section Properties.
Context {S : Type} `{ContextKeyServiceLaws S}.
Variable basename : string → string.
Variable extname : string → string.
Variable getModeIdByFilenameOrFirstLine : string → option string.

#[local] Abbreviation set := (set basename extname getModeIdByFilenameOrFirstLine).

Lemma key_get_set k k' v (b : Bound S) :
  key_get k (key_set k' v b) = if decide (k = k') then v else key_get k b.
Proof. apply get_set. Qed.

Lemma key_get_reset k k' (b : Bound S) :
  key_get k (key_reset k' b) = if decide (k = k') then None else key_get k b.
Proof. apply get_reset. Qed.

Lemma calls_reset (b : Bound S) :
  calls (reset b) =
    calls b ++ [CallReset Scheme; CallReset LangId; CallReset Resource;
                CallReset LangId; CallReset Extension].
Proof. unfold reset, key_reset; cbn. by rewrite <- !app_assoc. Qed.

Lemma filename_after_set value (b : Bound S) :
  key_get Filename (set value b) = (λ u, VString (basename (fsPath u))) <$> value.
Proof. unfold set. by rewrite !key_get_set. Qed.

Lemma reset_frame k (b : Bound S) :
  key_get k (reset b) = if decide (k = Filename) then key_get k b else None.
Proof. unfold reset. rewrite !key_get_reset. by destruct k. Qed.

(** C9.  After [set value] followed by [reset], the scheme, language-id,
    resource and extension keys are back at their default ([undefined]);
    [reset] calls the language-id key twice and the filename key not at
    all, so the filename key still holds what [set value] put there: the
    basename of the resource's path. *)
Theorem reset_after_set_leaves_filename value (b : Bound S) :
  let b1 := set value b in
  let b2 := reset b1 in
  key_get Scheme b2 = None ∧ key_get LangId b2 = None ∧
  key_get Resource b2 = None ∧ key_get Extension b2 = None ∧
  key_get Filename b2 = key_get Filename b1 ∧
  key_get Filename b2 = (λ u, VString (basename (fsPath u))) <$> value ∧
  calls b2 = calls b1 ++ [CallReset Scheme; CallReset LangId; CallReset Resource;
                          CallReset LangId; CallReset Extension] ∧
  times (CallReset LangId) (drop (length (calls b1)) (calls b2)) = 2 ∧
  times (CallReset Filename) (drop (length (calls b1)) (calls b2)) = 0.
Proof.
  intros b1 b2.
  assert (key_get Filename b2 = key_get Filename b1) as Hkeep
    by (subst b2; by rewrite reset_frame).
  rewrite Hkeep. subst b2.
  rewrite !reset_frame, calls_reset, drop_app_length.
  repeat split; try done.
  apply filename_after_set.
Qed.

End Properties.

Definition demo_resource : URI := {| scheme := "file"; fsPath := "/ws/src/app.ts" |}.

Definition demo_bound : Bound (gmap string CtxValue) := {| svc := ∅; calls := [] |}.

Definition demo_modes (path : string) : option string :=
  if String.eqb (demo_extname path) ".ts" then Some "typescript" else None.

Lemma reset_after_set_leaves_filename_witness :
  key_get Filename
    (reset (set demo_basename demo_extname demo_modes (Some demo_resource) demo_bound))
  = Some (VString "app.ts").
Proof.
  pose proof (reset_after_set_leaves_filename (S := gmap string CtxValue)
                demo_basename demo_extname demo_modes
                (Some demo_resource) demo_bound) as (_ & _ & _ & _ & _ & Hf & _).
  exact Hf.
Defined.

(** What [set] writes, and what is left after [reset]. *)
Example set_then_reset_runs :
  let b1 := set demo_basename demo_extname demo_modes (Some demo_resource) demo_bound in
  svc b1 = {[ "resource" := VUri demo_resource;
              "resourceScheme" := VString "file";
              "resourceFilename" := VString "app.ts";
              "resourceLangId" := VString "typescript";
              "resourceExtname" := VString ".ts" ]} ∧
  svc (reset b1) = {[ "resourceFilename" := VString "app.ts" ]}.
Proof. split; apply map_eq; intros k; vm_compute; reflexivity. Qed.

(** ** How [set], [get] and [reset] compose *)

Section Composition.
Context {S : Type} `{ContextKeyServiceLaws S}.
Variable basename : string → string.
Variable extname : string → string.
Variable getModeIdByFilenameOrFirstLine : string → option string.

#[local] Abbreviation set := (set basename extname getModeIdByFilenameOrFirstLine).

(** What [set value] leaves in a key: the projection of [value] the
    source computes for it, or the falsy [value] itself. *)
Definition projection (k : Key) (value : option URI) : option CtxValue :=
  match k with
  | Resource => VUri <$> value
  | Scheme => (λ u, VString (scheme u)) <$> value
  | Filename => (λ u, VString (basename (fsPath u))) <$> value
  | LangId => value ≫= λ u, VString <$> getModeIdByFilenameOrFirstLine (fsPath u)
  | Extension => (λ u, VString (extname (fsPath u))) <$> value
  end.

Lemma key_get_after_set k value (b : Bound S) :
  key_get k (set value b) = projection k value.
Proof. unfold ContextKeys.set. rewrite !key_get_set. by destruct k. Qed.

(** [get()] after [set(value)] gives [value] back, and each of the five
    keys holds its own projection of [value], whatever the service held
    before and although the five writes go through one shared service. *)
Theorem get_after_set value (b : Bound S) :
  get (set value b) = VUri <$> value ∧
  ∀ k, key_get k (set value b) = projection k value.
Proof. split; [apply (key_get_after_set Resource)|intros; apply key_get_after_set]. Qed.

(** A [set] leaves nothing of earlier calls behind: after it, every key
    reads the same whatever [set] and [reset] calls came before, the
    filename key that [reset] skips included. *)
Theorem set_overrides_earlier_calls value earlier (b : Bound S) k :
  key_get k (set value (reset (set earlier b))) = key_get k (set value b) ∧
  key_get k (set value (set earlier b)) = key_get k (set value b).
Proof. by rewrite !key_get_after_set. Qed.

(** [set] with a falsy resource clears all five keys, the filename key
    too; [reset] reads the same on every key but the filename key. *)
Theorem set_falsy_clears_every_key (b : Bound S) k :
  key_get k (set None b) = None ∧
  (k ≠ Filename → key_get k (reset b) = key_get k (set None b)).
Proof.
  rewrite key_get_after_set, reset_frame. split; [by destruct k|].
  intros Hk. by destruct k.
Qed.

End Composition.

Lemma get_after_set_witness :
  get (set demo_basename demo_extname demo_modes (Some demo_resource) demo_bound)
  = Some (VUri demo_resource).
Proof.
  exact (proj1 (get_after_set (S := gmap string CtxValue)
                  demo_basename demo_extname demo_modes
                  (Some demo_resource) demo_bound)).
Defined.

Lemma set_overrides_earlier_calls_witness :
  key_get Filename
    (set demo_basename demo_extname demo_modes (Some demo_resource)
       (reset (set demo_basename demo_extname demo_modes
                 (Some {| scheme := "file"; fsPath := "/ws/old.log" |}) demo_bound)))
  = key_get Filename
      (set demo_basename demo_extname demo_modes (Some demo_resource) demo_bound).
Proof.
  exact (proj1 (set_overrides_earlier_calls (S := gmap string CtxValue)
                  demo_basename demo_extname demo_modes (Some demo_resource)
                  (Some {| scheme := "file"; fsPath := "/ws/old.log" |})
                  demo_bound Filename)).
Defined.

Lemma set_falsy_clears_every_key_witness :
  key_get Filename
    (set demo_basename demo_extname demo_modes None
       (set demo_basename demo_extname demo_modes (Some demo_resource) demo_bound))
  = None.
Proof.
  exact (proj1 (set_falsy_clears_every_key (S := gmap string CtxValue)
                  demo_basename demo_extname demo_modes
                  (set demo_basename demo_extname demo_modes
                     (Some demo_resource) demo_bound) Filename)).
Defined.

End ContextKeys.

(* ===================================================================== *)
(** * ResourceGlobMatcher                                                 *)
(* ===================================================================== *)

Module GlobMatcher.

(** The collaborators [resources.ts] imports: [URI], [objects.equals],
    [objects.clone], [glob.parse], [paths.normalize], [paths.relative],
    and the payload type of configuration-change events. *)
Class Platform := {
  URI : Type;
  uri_toString : URI → string;
  uri_parse : string → URI;
  uri_fsPath : URI → string;
  IExpression : Type;
  IConfigurationChangeEvent : Type;
  equals : IExpression → IExpression → bool;
  clone : IExpression → IExpression;
  (** [glob.parse expr] is a function from a path to the matching pattern,
      or [null]. *)
  glob_parse : IExpression → string → option string;
  normalize : string → string;
  relative : string → string → string;
}.

(** Contract of the object helper and the glob compiler: compiling a deep
    copy gives a matcher that answers like the one compiled from the
    original. *)
Class PlatformLaws (platform : Platform) := {
  parse_clone c path : glob_parse (clone c) path = glob_parse c path;
}.

(** Contract of the object helper alone: a deep copy is deeply equal to
    what it was copied from. *)
Class EqualsLaws (platform : Platform) := {
  equals_clone c : equals (clone c) c = true;
}.

(** A key of the two maps: [folder.uri.toString()], or [NO_ROOT], which is
    [null] and so no string at all. *)
Abbreviation RootKey := (option string).

Definition NO_ROOT : RootKey := None.

(** A compiled matcher.  [pe_ref] is the identity of the function object:
    its rank among the matchers this instance has compiled. *)
Record ParsedExpression := { pe_ref : nat; pe_call : string → option string }.

(** What [toUnbind] holds: the emitter and the two subscriptions. *)
Inductive IDisposable :=
  | TheEmitter
  | ConfigurationSubscription
  | WorkspaceFoldersSubscription.

#[export] Instance IDisposable_eq_dec : EqDecision IDisposable.
Proof. solve_decision. Defined.

(** What an observer of the instance can see happen. *)
Inductive Observation :=
  | Synchronized (fromEvent : bool)   (* [updateExcludes] ran its three steps *)
  | ExpressionChanged.                (* [onExpressionChange] fired *)

#[export] Instance Observation_eq_dec : EqDecision Observation.
Proof. solve_decision. Defined.

(** JavaScript completions of a call. *)
Inductive JsError := TypeError.
Inductive Completion (A : Type) := Return (a : A) | Throw (e : JsError).
Arguments Return {A} _.
Arguments Throw {A} _.

(** [!!v] for a value that is a string or [null]. *)
Definition truthy (v : option string) : bool :=
  match v with
  | None => false
  | Some s => negb (String.eqb s "")
  end.

Section WithPlatform.
Context {platform : Platform}.

Record WorkspaceFolder := { folder_uri : URI }.

(** What the injected services answer while one call runs:
    [contextService.getWorkspace().folders],
    [contextService.getWorkspaceFolder] and [globFn]. *)
Record Services := {
  folders : list WorkspaceFolder;
  getWorkspaceFolder : URI → option WorkspaceFolder;
  globFn : option URI → IExpression;
}.

(** The instance, with what surrounds it: whether the two services still
    hold its listeners and whether the emitter still delivers
    (modelled from the subscription and disposal contract), how many
    matchers it has compiled, and the log of observations. *)
Record State := {
  toUnbind : list IDisposable;
  mapRootToParsedExpression : gmap RootKey ParsedExpression;
  mapRootToExpressionConfig : gmap RootKey IExpression;
  emitterLive : bool;
  configurationListener : bool;
  workspaceFoldersListener : bool;
  compiled : nat;
  history : list Observation;
}.

Definition with_maps (pm : gmap RootKey ParsedExpression)
    (cm : gmap RootKey IExpression) (n : nat) (st : State) : State :=
  {| toUnbind := toUnbind st;
     mapRootToParsedExpression := pm;
     mapRootToExpressionConfig := cm;
     emitterLive := emitterLive st;
     configurationListener := configurationListener st;
     workspaceFoldersListener := workspaceFoldersListener st;
     compiled := n;
     history := history st |}.

Definition observe (o : Observation) (st : State) : State :=
  {| toUnbind := toUnbind st;
     mapRootToParsedExpression := mapRootToParsedExpression st;
     mapRootToExpressionConfig := mapRootToExpressionConfig st;
     emitterLive := emitterLive st;
     configurationListener := configurationListener st;
     workspaceFoldersListener := workspaceFoldersListener st;
     compiled := compiled st;
     history := history st ++ [o] |}.

(** [parse(expr)]: a new function object. *)
Definition parse (expr : IExpression) (st : State) : ParsedExpression :=
  {| pe_ref := compiled st; pe_call := glob_parse expr |}.

(** [!map.has(root) || !objects.equals(map.get(root), excludes)] *)
Definition outdated (st : State) (root : RootKey) (excludes : IExpression) : bool :=
  match mapRootToExpressionConfig st !! root with
  | None => true
  | Some stored => negb (equals stored excludes)
  end.

(** The body of both [if]s: set the compiled matcher, then the copy of the
    config. *)
Definition install (root : RootKey) (excludes : IExpression) (st : State) : State :=
  with_maps (<[root := parse excludes st]> (mapRootToParsedExpression st))
            (<[root := clone excludes]> (mapRootToExpressionConfig st))
            (S (compiled st)) st.

(** One root in the loop over the folders, and the [NO_ROOT] step; the
    second component is the local [changed]. *)
Definition refresh (root : RootKey) (excludes : IExpression)
    (p : State * bool) : State * bool :=
  if outdated p.1 root excludes then (install root excludes p.1, true) else p.

Definition folder_key (folder : WorkspaceFolder) : RootKey :=
  Some (uri_toString (folder_uri folder)).

Definition add_folder (env : Services) (p : State * bool)
    (folder : WorkspaceFolder) : State * bool :=
  refresh (folder_key folder) (globFn env (Some (folder_uri folder))) p.

Definition forget (root : RootKey) (st : State) : State :=
  with_maps (delete root (mapRootToParsedExpression st))
            (delete root (mapRootToExpressionConfig st))
            (compiled st) st.

(** The callback of [mapRootToExpressionConfig.forEach]. *)
Definition prune (env : Services) (p : State * bool) (root : RootKey)
    : State * bool :=
  match root with
  | None => p
  | Some r =>
      match getWorkspaceFolder env (uri_parse r) with
      | Some _ => p
      | None => (forget root p.1, true)
      end
  end.

(** The three steps of [updateExcludes] up to the final [if].  The second
    loop visits the keys the config map has when the loop starts: its
    callback deletes no key but the one it is visiting. *)
Definition synchronize (env : Services) (st : State) : State * bool :=
  let p := foldl (add_folder env) (st, false) (folders env) in
  let p := foldl (prune env) p (elements (dom (mapRootToExpressionConfig p.1))) in
  refresh NO_ROOT (globFn env None) p.

(** [_onExpressionChange.fire()]: a disposed emitter has no listeners. *)
Definition fire (st : State) : State :=
  if emitterLive st then observe ExpressionChanged st else st.

(** [updateExcludes(fromEvent)] *)
Definition updateExcludes (env : Services) (fromEvent : bool) (st : State) : State :=
  let p := synchronize env st in
  let st' := observe (Synchronized fromEvent) p.1 in
  if fromEvent && p.2 then fire st' else st'.

(** The constructor, before [updateExcludes(false)]. *)
Definition fresh_instance : State :=
  {| toUnbind := [TheEmitter];
     mapRootToParsedExpression := ∅;
     mapRootToExpressionConfig := ∅;
     emitterLive := true;
     configurationListener := false;
     workspaceFoldersListener := false;
     compiled := 0;
     history := [] |}.

(** [registerListeners()] *)
Definition registerListeners (st : State) : State :=
  {| toUnbind := toUnbind st ++ [ConfigurationSubscription; WorkspaceFoldersSubscription];
     mapRootToParsedExpression := mapRootToParsedExpression st;
     mapRootToExpressionConfig := mapRootToExpressionConfig st;
     emitterLive := emitterLive st;
     configurationListener := true;
     workspaceFoldersListener := true;
     compiled := compiled st;
     history := history st |}.

(** [new ResourceGlobMatcher(globFn, shouldUpdate, contextService,
    configurationService)] *)
Definition construct (env : Services) : State :=
  registerListeners (updateExcludes env false fresh_instance).

(** Modelled from the spec: disposing a subscription unsubscribes the
    listener, disposing the emitter releases it ("Releases the
    change-event emitter and unsubscribes from both external signals"). *)
Definition dispose_one (st : State) (d : IDisposable) : State :=
  {| toUnbind := toUnbind st;
     mapRootToParsedExpression := mapRootToParsedExpression st;
     mapRootToExpressionConfig := mapRootToExpressionConfig st;
     emitterLive := if decide (d = TheEmitter) then false else emitterLive st;
     configurationListener :=
       if decide (d = ConfigurationSubscription) then false
       else configurationListener st;
     workspaceFoldersListener :=
       if decide (d = WorkspaceFoldersSubscription) then false
       else workspaceFoldersListener st;
     compiled := compiled st;
     history := history st |}.

(** [this.toUnbind = dispose(this.toUnbind)]: every element is disposed
    and the empty array comes back. *)
Definition dispose (st : State) : State :=
  let st' := foldl dispose_one st (toUnbind st) in
  {| toUnbind := [];
     mapRootToParsedExpression := mapRootToParsedExpression st';
     mapRootToExpressionConfig := mapRootToExpressionConfig st';
     emitterLive := emitterLive st';
     configurationListener := configurationListener st';
     workspaceFoldersListener := workspaceFoldersListener st';
     compiled := compiled st';
     history := history st' |}.

(** The two external signals. *)
Inductive Signal :=
  | ConfigurationChanged (e : IConfigurationChangeEvent)
  | WorkspaceFoldersChanged.

(** Delivery of a signal: a service calls the listener it still holds.
    The listeners are the two closures of [registerListeners]. *)
Definition deliver (shouldUpdate : IConfigurationChangeEvent → bool)
    (env : Services) (sig : Signal) (st : State) : State :=
  match sig with
  | ConfigurationChanged e =>
      if configurationListener st then
        if shouldUpdate e then updateExcludes env true st else st
      else st
  | WorkspaceFoldersChanged =>
      if workspaceFoldersListener st then updateExcludes env true st else st
  end.

(** [matches(resource)].  Calling the [undefined] that [Map.get] returns
    for a missing key throws a [TypeError]. *)
Definition matches (env : Services) (st : State) (resource : URI)
    : Completion bool :=
  let folder := getWorkspaceFolder env resource in
  let expressionForRoot :=
    match folder with
    | Some f =>
        match mapRootToParsedExpression st !! folder_key f with
        | Some pe => Some pe
        | None => mapRootToParsedExpression st !! NO_ROOT
        end
    | None => mapRootToParsedExpression st !! NO_ROOT
    end in
  let resourcePathToMatch :=
    match folder with
    | Some f => normalize (relative (uri_fsPath (folder_uri f)) (uri_fsPath resource))
    | None => uri_fsPath resource
    end in
  match expressionForRoot with
  | Some pe => Return (truthy (pe_call pe resourcePathToMatch))
  | None => Throw TypeError
  end.

(** The states an instance goes through: constructed, then any sequence
    of signals (each under whatever the services answer at that time) and
    [dispose] calls. *)
Inductive reachable (shouldUpdate : IConfigurationChangeEvent → bool)
    : State → Prop :=
  | reach_construct env : reachable shouldUpdate (construct env)
  | reach_deliver env sig st :
      reachable shouldUpdate st →
      reachable shouldUpdate (deliver shouldUpdate env sig st)
  | reach_dispose st :
      reachable shouldUpdate st → reachable shouldUpdate (dispose st).

(** The query as the data model words it: the matcher of a root is what
    compiling the stored config of that root gives.  Same selection and
    same path as [matches], but reading the config map only. *)
Definition matches_by_config (env : Services) (st : State) (resource : URI)
    : Completion bool :=
  let folder := getWorkspaceFolder env resource in
  let configForRoot :=
    match folder with
    | Some f =>
        match mapRootToExpressionConfig st !! folder_key f with
        | Some c => Some c
        | None => mapRootToExpressionConfig st !! NO_ROOT
        end
    | None => mapRootToExpressionConfig st !! NO_ROOT
    end in
  let resourcePathToMatch :=
    match folder with
    | Some f => normalize (relative (uri_fsPath (folder_uri f)) (uri_fsPath resource))
    | None => uri_fsPath resource
    end in
  match configForRoot with
  | Some c => Return (truthy (glob_parse c resourcePathToMatch))
  | None => Throw TypeError
  end.

(** The pair of maps is in step: same keys, and each stored matcher
    answers like a fresh compilation of the stored config. *)
Definition consistent (st : State) : Prop :=
  dom (mapRootToExpressionConfig st) = dom (mapRootToParsedExpression st) ∧
  ∀ root c, mapRootToExpressionConfig st !! root = Some c →
    ∃ pe, mapRootToParsedExpression st !! root = Some pe ∧
          ∀ path, pe_call pe path = glob_parse c path.

(** A stored key whose folder the workspace no longer knows. *)
Definition orphaned (env : Services) (root : RootKey) : bool :=
  match root with
  | None => false
  | Some r => bool_decide (getWorkspaceFolder env (uri_parse r) = None)
  end.

(** The roots one pass fetches a config for, with what it fetches. *)
Definition fetched (env : Services) : list (RootKey * IExpression) :=
  ((λ f, (folder_key f, globFn env (Some (folder_uri f)))) <$> folders env)
  ++ [(NO_ROOT, globFn env None)].

(** What the two maps hold for a root. *)
Definition entry (st : State) (root : RootKey)
    : option ParsedExpression * option IExpression :=
  (mapRootToParsedExpression st !! root, mapRootToExpressionConfig st !! root).

(** The workspace service knows the folders it lists: looking up the
    URI parsed back from a listed folder's key finds an owning folder. *)
Definition coherent (env : Services) : Prop :=
  ∀ f, f ∈ folders env →
    is_Some (getWorkspaceFolder env (uri_parse (uri_toString (folder_uri f)))).

(** An instance is either wholly wired (emitter and both subscriptions
    held in [toUnbind] and live) or wholly released. *)
Definition wired (st : State) : Prop :=
  toUnbind st = [TheEmitter; ConfigurationSubscription; WorkspaceFoldersSubscription] ∧
  emitterLive st = true ∧ configurationListener st = true ∧
  workspaceFoldersListener st = true.

Definition released (st : State) : Prop :=
  toUnbind st = [] ∧ emitterLive st = false ∧
  configurationListener st = false ∧ workspaceFoldersListener st = false.

(** Whether delivering a signal runs a pass: the service must still hold
    the listener, and a configuration change must pass [shouldUpdate]. *)
Definition triggers (shouldUpdate : IConfigurationChangeEvent → bool)
    (sig : Signal) (st : State) : bool :=
  match sig with
  | ConfigurationChanged e => configurationListener st && shouldUpdate e
  | WorkspaceFoldersChanged => workspaceFoldersListener st
  end.

(** Every stored matcher was compiled by this instance: its identity is
    below the count of matchers compiled so far. *)
Definition refs_below_compiled (st : State) : Prop :=
  ∀ root pe, mapRootToParsedExpression st !! root = Some pe →
    pe_ref pe < compiled st.

(** How many notifications a log holds. *)
Definition notifications (log : list Observation) : nat :=
  length (filter (λ o, o = ExpressionChanged) log).

(** How many passes fired by a signal a log holds. *)
Definition event_passes (log : list Observation) : nat :=
  length (filter (λ o, o = Synchronized true) log).

(** How many synchronization passes a log holds. *)
Definition passes (log : list Observation) : nat :=
  length (filter (λ o, ∃ b, o = Synchronized b) log).

End WithPlatform.

(** ** A small platform to run the code on

    URIs are [file://] paths, an exclusion config is an ordered list of
    patterns with their enable flag, and the glob compiler knows three
    pattern shapes: [dir/**], [**/*suffix] and a literal path. *)
Module Demo.

Definition ends_with (suffix s : string) : bool :=
  let n := String.length suffix in
  let m := String.length s in
  (n <=? m)%nat && String.eqb (String.substring (m - n) n s) suffix.

Definition pattern_matches (pattern path : string) : bool :=
  let n := String.length pattern in
  if ends_with "/**" pattern then
    String.prefix (String.substring 0 (n - 2) pattern) path
  else if String.prefix "**/*" pattern then
    ends_with (String.substring 4 (n - 4) pattern) path
  else String.eqb pattern path.

Fixpoint first_match (expr : list (string * bool)) (path : string) : option string :=
  match expr with
  | [] => None
  | (pattern, enabled) :: rest =>
      if enabled && pattern_matches pattern path then Some pattern
      else first_match rest path
  end.

Definition strip_root (from to : string) : string :=
  let n := String.length from in
  if String.prefix (String.append from "/") to then
    String.substring (n + 1) (String.length to - (n + 1)) to
  else to.

#[export] Instance platform : Platform := {|
  URI := string;
  uri_toString u := String.append "file://" u;
  uri_parse s := String.substring 7 (String.length s - 7) s;
  uri_fsPath u := u;
  IExpression := list (string * bool);
  IConfigurationChangeEvent := list string;
  equals a b := bool_decide (a = b);
  clone a := a;
  glob_parse := first_match;
  normalize p := p;
  relative := strip_root;
|}.

#[export] Instance platform_laws : PlatformLaws platform.
Proof. by split. Qed.

#[export] Instance equals_laws : EqualsLaws platform.
Proof. split. intros c. by apply bool_decide_eq_true. Qed.

Definition ws : WorkspaceFolder := {| folder_uri := "/ws" : URI |}.
Definition sub : WorkspaceFolder := {| folder_uri := "/ws/sub" : URI |}.

(** Whether a path is the folder's own or lies under it. *)
Definition inside (folder : WorkspaceFolder) (u : URI) : bool :=
  String.eqb u (folder_uri folder)
  || String.prefix (String.append (folder_uri folder) "/") u.

(** Modelled from the spec: the owner lookup of the workspace service
    ("ownerRootOf(resourcePath) -> optional root"), the listed folder
    that contains the resource; the innermost one when folders nest. *)
Definition owner_of (fs : list WorkspaceFolder) (u : URI) : option WorkspaceFolder :=
  foldl (λ best f,
           if inside f u &&
              match best with
              | None => true
              | Some b => (String.length (folder_uri b) <? String.length (folder_uri f))%nat
              end
           then Some f else best)
        None fs.

(** The glob provider of the scenario: [build/**] under a root (but
    [out/**] under the nested root) and [**/*.log] outside every root. *)
Definition excludes (root : option URI) : IExpression :=
  match root with
  | Some u => if String.eqb u "/ws/sub" then [("out/**", true)] else [("build/**", true)]
  | None => [("**/*.log", true)]
  end.

(** The provider after the global exclusion setting was edited. *)
Definition excludes_edited (root : option URI) : IExpression :=
  match root with
  | Some u => excludes (Some u)
  | None => [("**/*.tmp", true)]
  end.

Definition workspace (fs : list WorkspaceFolder)
    (provider : option URI → IExpression) : Services :=
  {| folders := fs; getWorkspaceFolder := owner_of fs; globFn := provider |}.

(** One root, [/ws]. *)
Definition services : Services := workspace [ws] excludes.

(** The same workspace after the root was removed. *)
Definition services_no_root : Services := workspace [] excludes.

(** The same workspace after the global exclusion setting was edited. *)
Definition services_edited : Services := workspace [ws] excludes_edited.

(** Two roots, one inside the other. *)
Definition services_nested : Services := workspace [ws; sub] excludes.

(** An instance whose maps hold nothing. *)
Definition hollow : State := fresh_instance.

Definition always : IConfigurationChangeEvent → bool := λ _, true.
Definition never : IConfigurationChangeEvent → bool := λ _, false.

(** The instance of the scenario, right after construction. *)
Definition started : State := construct services.

End Demo.

(** ** Properties *)

Section Properties.
Context {platform : Platform} {laws : PlatformLaws platform}.
Implicit Types (st : State) (env : Services) (root : RootKey)
  (p : State * bool) (excludes : IExpression).

#[local] Abbreviation parsed := mapRootToParsedExpression.
#[local] Abbreviation config := mapRootToExpressionConfig.

(** What the bookkeeping fields of two states agree on. *)
Definition same_surroundings st st' : Prop :=
  toUnbind st' = toUnbind st ∧ emitterLive st' = emitterLive st ∧
  configurationListener st' = configurationListener st ∧
  workspaceFoldersListener st' = workspaceFoldersListener st ∧
  history st' = history st.

#[local] Instance same_surroundings_refl : Reflexive same_surroundings.
Proof. by intros st. Qed.

#[local] Instance same_surroundings_trans : Transitive same_surroundings.
Proof.
  intros a b c (?&?&?&?&?) (?&?&?&?&?). repeat split; congruence.
Qed.

Lemma generic_foldl {A B} (P : A → Prop) (f : A → B → A) l :
  (∀ a x, P a → P (f a x)) → ∀ a, P a → P (foldl f a l).
Proof. intros Hf. induction l; cbn; auto. Qed.

Lemma outdated_false st root excludes :
  outdated st root excludes = false ↔
  ∃ stored, config st !! root = Some stored ∧ equals stored excludes = true.
Proof.
  unfold outdated. destruct (config st !! root) as [c|].
  - rewrite negb_false_iff. split; [by eauto|]. by intros (? & [= <-] & ?).
  - split; [done|]. by intros (? & ? & _).
Qed.

Lemma outdated_ext st st' root excludes :
  config st' !! root = config st !! root →
  outdated st' root excludes = outdated st root excludes.
Proof. unfold outdated. by intros ->. Qed.

Lemma prune_orphaned env p root :
  prune env p root = if orphaned env root then (forget root p.1, true) else p.
Proof.
  destruct root as [r|]; cbn; [|done].
  destruct (getWorkspaceFolder env (uri_parse r)); by cbn.
Qed.

(** *** The pair of maps stays in step *)

Lemma consistent_install root excludes st :
  consistent st → consistent (install root excludes st).
Proof using laws.
  intros [Hdom Hsem]. split; cbn.
  - rewrite !dom_insert_L. by rewrite Hdom.
  - intros k c. destruct (decide (root = k)) as [->|Hne].
    + rewrite !lookup_insert_eq. intros [= <-]. eexists; split; [done|].
      intros path; cbn. symmetry. apply parse_clone.
    + rewrite !lookup_insert_ne by done. apply Hsem.
Qed.

Lemma consistent_forget root st : consistent st → consistent (forget root st).
Proof.
  intros [Hdom Hsem]. split; cbn.
  - rewrite !dom_delete_L. by rewrite Hdom.
  - intros k c. destruct (decide (root = k)) as [->|Hne].
    + by rewrite lookup_delete_eq.
    + rewrite !lookup_delete_ne by done. apply Hsem.
Qed.

Lemma consistent_refresh root excludes p :
  consistent p.1 → consistent (refresh root excludes p).1.
Proof using laws.
  unfold refresh. destruct (outdated _ _ _); [|done]. apply consistent_install.
Qed.

Lemma consistent_prune env p root : consistent p.1 → consistent (prune env p root).1.
Proof.
  rewrite prune_orphaned. destruct (orphaned env root); [|done].
  apply consistent_forget.
Qed.

Lemma consistent_synchronize env st :
  consistent st → consistent (synchronize env st).1.
Proof using laws.
  intros Hst. unfold synchronize. apply consistent_refresh.
  apply (generic_foldl (λ p, consistent p.1)); [intros; by apply consistent_prune|].
  apply (generic_foldl (λ p, consistent p.1)); [|done].
  intros; by apply consistent_refresh.
Qed.

Lemma consistent_maps st st' :
  parsed st' = parsed st → config st' = config st → consistent st → consistent st'.
Proof. unfold consistent. by intros -> ->. Qed.

Lemma maps_fire st : parsed (fire st) = parsed st ∧ config (fire st) = config st.
Proof. unfold fire. by destruct (emitterLive st). Qed.

Lemma maps_updateExcludes env b st :
  parsed (updateExcludes env b st) = parsed (synchronize env st).1 ∧
  config (updateExcludes env b st) = config (synchronize env st).1 ∧
  compiled (updateExcludes env b st) = compiled (synchronize env st).1.
Proof.
  unfold updateExcludes, fire. cbn.
  destruct (b && _); [destruct (emitterLive _)|]; done.
Qed.

Lemma consistent_updateExcludes env b st :
  consistent st → consistent (updateExcludes env b st).
Proof using laws.
  intros Hst. destruct (maps_updateExcludes env b st) as (Hp & Hc & _).
  eapply consistent_maps; [done..|]. by apply consistent_synchronize.
Qed.

Lemma maps_dispose_all l st :
  parsed (foldl dispose_one st l) = parsed st ∧
  config (foldl dispose_one st l) = config st ∧
  compiled (foldl dispose_one st l) = compiled st ∧
  history (foldl dispose_one st l) = history st.
Proof.
  revert st. induction l as [|d l IH]; intros st; [done|].
  cbn. by destruct (IH (dispose_one st d)) as (-> & -> & -> & ->).
Qed.

Lemma maps_dispose st :
  parsed (dispose st) = parsed st ∧ config (dispose st) = config st ∧
  compiled (dispose st) = compiled st ∧ history (dispose st) = history st.
Proof. unfold dispose. cbn. apply maps_dispose_all. Qed.

Lemma consistent_deliver shouldUpdate env sig st :
  consistent st → consistent (deliver shouldUpdate env sig st).
Proof using laws.
  intros Hst. unfold deliver.
  destruct sig as [e|]; repeat case_match; auto using consistent_updateExcludes.
Qed.

Lemma consistent_reachable shouldUpdate st :
  reachable shouldUpdate st → consistent st.
Proof using laws.
  induction 1 as [env|env sig st _ IH|st _ IH].
  - unfold construct.
    apply (consistent_maps (updateExcludes env false fresh_instance)); [done..|].
    apply consistent_updateExcludes. split; [done|]. intros root c. cbn.
    by rewrite lookup_empty.
  - by apply consistent_deliver.
  - destruct (maps_dispose st) as (Hp & Hc & _). by eapply consistent_maps.
Qed.

Lemma consistent_lookup st root :
  consistent st →
  match parsed st !! root, config st !! root with
  | Some pe, Some c => ∀ path, pe_call pe path = glob_parse c path
  | None, None => True
  | _, _ => False
  end.
Proof.
  intros [Hdom Hsem].
  destruct (config st !! root) as [c|] eqn:Hc.
  - destruct (Hsem _ _ Hc) as (pe & -> & Hpe). done.
  - apply not_elem_of_dom in Hc. rewrite Hdom in Hc.
    apply not_elem_of_dom in Hc. by rewrite Hc.
Qed.

Lemma matches_reads_config env st resource :
  consistent st → matches env st resource = matches_by_config env st resource.
Proof.
  intros Hst. unfold matches, matches_by_config.
  pose proof (consistent_lookup st NO_ROOT Hst) as Hno.
  destruct (getWorkspaceFolder env resource) as [f|].
  - pose proof (consistent_lookup st (folder_key f) Hst) as Hf.
    repeat case_match; try done; by (rewrite Hf || rewrite Hno).
  - repeat case_match; try done. by rewrite Hno.
Qed.

(** *** What one pass does to each root *)

Lemma entry_install_eq root excludes st :
  entry (install root excludes st) root =
    (Some (parse excludes st), Some (clone excludes)).
Proof. unfold entry; cbn. by rewrite !lookup_insert_eq. Qed.

Lemma entry_install_ne root excludes st k :
  k ≠ root → entry (install root excludes st) k = entry st k.
Proof. intros. unfold entry; cbn. by rewrite !lookup_insert_ne. Qed.

Lemma entry_forget_eq root st : entry (forget root st) root = (None, None).
Proof. unfold entry; cbn. by rewrite !lookup_delete_eq. Qed.

Lemma entry_forget_ne root st k : k ≠ root → entry (forget root st) k = entry st k.
Proof. intros. unfold entry; cbn. by rewrite !lookup_delete_ne. Qed.

Lemma entry_config st st' k : entry st' k = entry st k → config st' !! k = config st !! k.
Proof. unfold entry. by intros [= _ ->]. Qed.

Lemma entry_parsed st st' k : entry st' k = entry st k → parsed st' !! k = parsed st !! k.
Proof. unfold entry. by intros [= -> _]. Qed.

Lemma entry_config_some st k pe c : entry st k = (Some pe, Some c) → config st !! k = Some c.
Proof. unfold entry. by intros [= _ ->]. Qed.

Lemma entry_parsed_some st k pe c : entry st k = (Some pe, Some c) → parsed st !! k = Some pe.
Proof. unfold entry. by intros [= -> _]. Qed.

Lemma entry_refresh_ne root excludes p k :
  k ≠ root → entry (refresh root excludes p).1 k = entry p.1 k.
Proof.
  intros. unfold refresh. destruct (outdated _ _ _); [|done].
  by apply entry_install_ne.
Qed.

Lemma compiled_refresh root excludes p :
  compiled p.1 ≤ compiled (refresh root excludes p).1.
Proof. unfold refresh. destruct (outdated _ _ _); cbn; lia. Qed.

Lemma changed_refresh root excludes p :
  (refresh root excludes p).2 = true ↔
  p.2 = true ∨ outdated p.1 root excludes = true.
Proof.
  unfold refresh. destruct (outdated _ _ _); cbn; [split; by auto|].
  split; [by auto|]. by intros [?|?].
Qed.

Lemma surroundings_refresh root excludes p :
  same_surroundings p.1 (refresh root excludes p).1.
Proof. unfold refresh. by destruct (outdated _ _ _). Qed.

Lemma surroundings_prune env p root : same_surroundings p.1 (prune env p root).1.
Proof. rewrite prune_orphaned. by destruct (orphaned env root). Qed.

Lemma surroundings_synchronize env st : same_surroundings st (synchronize env st).1.
Proof.
  unfold synchronize. etrans; [|apply surroundings_refresh].
  etrans; [|apply (generic_foldl (λ p, same_surroundings
      (foldl (add_folder env) (st, false) (folders env)).1 p.1)); [|done]].
  - apply (generic_foldl (λ p, same_surroundings st p.1)); [|done].
    intros a x Ha. etrans; [done|]. apply surroundings_refresh.
  - intros a x Ha. etrans; [done|]. apply surroundings_prune.
Qed.

(** The first loop, over a list of folders with pairwise different keys. *)
Lemma add_folders_spec env l :
  NoDup (folder_key <$> l) → ∀ p,
  let p' := foldl (add_folder env) p l in
  compiled p.1 ≤ compiled p'.1 ∧
  (p'.2 = true ↔
     p.2 = true ∨
     ∃ f, f ∈ l ∧ outdated p.1 (folder_key f) (globFn env (Some (folder_uri f))) = true) ∧
  (∀ k, k ∉ folder_key <$> l → entry p'.1 k = entry p.1 k) ∧
  (∀ f, f ∈ l →
     let excludes := globFn env (Some (folder_uri f)) in
     if outdated p.1 (folder_key f) excludes then
       ∃ n, compiled p.1 ≤ n < compiled p'.1 ∧
            entry p'.1 (folder_key f) =
              (Some {| pe_ref := n; pe_call := glob_parse excludes |},
               Some (clone excludes))
     else entry p'.1 (folder_key f) = entry p.1 (folder_key f)).
Proof.
  induction l as [|f0 l IH]; intros Hnd p; cbn.
  { split; [lia|]. split; [|split; [done|]].
    - split; [by auto|]. intros [?|(f & Hf & _)]; [done|]. by apply elem_of_nil in Hf.
    - intros f Hf. by apply elem_of_nil in Hf. }
  rewrite fmap_cons in Hnd. apply NoDup_cons in Hnd as [Hf0 Hnd].
  set (p1 := add_folder env p f0).
  destruct (IH Hnd p1) as (Hc & Hch & Hother & Hat).
  assert (∀ k, k ≠ folder_key f0 → entry p1.1 k = entry p.1 k) as Hp1
    by (intros; by apply entry_refresh_ne).
  assert (∀ f, f ∈ l → outdated p1.1 (folder_key f) (globFn env (Some (folder_uri f)))
                       = outdated p.1 (folder_key f) (globFn env (Some (folder_uri f))))
    as Hout.
  { intros f Hf. apply outdated_ext, entry_config, Hp1.
    intros E. apply Hf0. rewrite <- E. by apply list_elem_of_fmap_2. }
  pose proof (compiled_refresh (folder_key f0) (globFn env (Some (folder_uri f0))) p)
    as Hc1. fold (add_folder env p f0) in Hc1. fold p1 in Hc1.
  split; [lia|]. split; [|split].
  - rewrite Hch. unfold p1 at 1, add_folder. rewrite changed_refresh. split.
    + intros [[?|?]|(f & Hf & Ho)]; [by left|right..].
      * exists f0. split; [by left|done].
      * exists f. split; [by right|]. by rewrite <- Hout.
    + intros [?|(f & Hf & Ho)]; [by left; left|].
      apply elem_of_cons in Hf as [->|Hf]; [by left; right|].
      right. exists f. split; [done|]. by rewrite Hout.
  - intros k Hk. rewrite ?fmap_cons in Hk. apply not_elem_of_cons in Hk as [Hk0 Hk].
    rewrite Hother by done. by apply Hp1.
  - intros f Hf. apply elem_of_cons in Hf as [->|Hf].
    + rewrite (Hother _ Hf0). unfold p1, add_folder, refresh.
      destruct (outdated _ _ _) eqn:Ho; [|done].
      exists (compiled p.1). split.
      * unfold p1, add_folder, refresh in Hc. rewrite Ho in Hc. cbn in Hc. lia.
      * cbn [fst]. by rewrite entry_install_eq.
    + specialize (Hat f Hf). cbn zeta in Hat. rewrite (Hout f Hf) in Hat.
      assert (folder_key f ≠ folder_key f0) as Hne.
      { intros E. apply Hf0. rewrite <- E. by apply list_elem_of_fmap_2. }
      destruct (outdated _ _ _).
      * destruct Hat as (n & Hn & He). exists n. split; [lia|done].
      * by rewrite Hat, Hp1.
Qed.

(** The second loop, over any list of keys. *)
Lemma prune_all_spec env ks : ∀ p,
  let p' := foldl (prune env) p ks in
  compiled p'.1 = compiled p.1 ∧
  (p'.2 = true ↔ p.2 = true ∨ ∃ k, k ∈ ks ∧ orphaned env k = true) ∧
  (∀ k, entry p'.1 k =
        if bool_decide (k ∈ ks) && orphaned env k then (None, None) else entry p.1 k).
Proof.
  induction ks as [|k0 ks IH]; intros p; cbn.
  { split; [done|]. split; [|done].
    split; [by auto|]. intros [?|(k & Hk & _)]; [done|]. by apply elem_of_nil in Hk. }
  destruct (IH (prune env p k0)) as (Hc & Hch & Hent).
  rewrite prune_orphaned in Hc, Hch, Hent. rewrite prune_orphaned.
  split; [|split].
  - rewrite Hc. by destruct (orphaned env k0).
  - rewrite Hch. split.
    + intros [Hp|(k & Hk & Ho)].
      * destruct (orphaned env k0) eqn:Ho0; [|by left].
        right. exists k0. split; [by left|done].
      * right. exists k. split; [by right|done].
    + intros [Hp|(k & Hk & Ho)]; [left; by destruct (orphaned env k0)|].
      apply elem_of_cons in Hk as [->|Hk]; [left; by rewrite Ho|].
      right. by exists k.
  - intros k. rewrite Hent.
    destruct (decide (k = k0)) as [->|Hne].
    + rewrite (bool_decide_eq_true_2 (k0 ∈ k0 :: ks)) by by left.
      destruct (orphaned env k0); cbn.
      * rewrite entry_forget_eq. by destruct (bool_decide _).
      * by rewrite andb_false_r.
    + assert (bool_decide (k ∈ k0 :: ks) = bool_decide (k ∈ ks)) as ->.
      { apply bool_decide_ext. rewrite elem_of_cons.
        split; [by intros [?|?]|by right]. }
      destruct (bool_decide (k ∈ ks) && orphaned env k); [done|].
      destruct (orphaned env k0); [|done]. by apply entry_forget_ne.
Qed.

Lemma orphaned_true env r :
  orphaned env (Some r) = true ↔ getWorkspaceFolder env (uri_parse r) = None.
Proof. cbn. apply bool_decide_eq_true. Qed.

Lemma coherent_not_orphaned env f :
  coherent env → f ∈ folders env → orphaned env (folder_key f) = false.
Proof.
  intros Hco Hf. cbn. apply bool_decide_eq_false.
  destruct (Hco f Hf) as [g Hg]. by rewrite Hg.
Qed.

Lemma entry_add_folders_no_root env l p :
  entry (foldl (add_folder env) p l).1 NO_ROOT = entry p.1 NO_ROOT.
Proof.
  apply (generic_foldl (λ q, entry q.1 NO_ROOT = entry p.1 NO_ROOT)); [|done].
  intros q f Hq. unfold add_folder. by rewrite entry_refresh_ne.
Qed.

Lemma compiled_add_folders env l p :
  compiled p.1 ≤ compiled (foldl (add_folder env) p l).1.
Proof.
  apply (generic_foldl (λ q, compiled p.1 ≤ compiled q.1)); [|done].
  intros q f Hq. etrans; [done|]. apply compiled_refresh.
Qed.

Lemma entry_synchronize_folder env st f :
  NoDup (folder_key <$> folders env) → coherent env → f ∈ folders env →
  let excludes := globFn env (Some (folder_uri f)) in
  if outdated st (folder_key f) excludes then
    ∃ n, compiled st ≤ n < compiled (synchronize env st).1 ∧
         entry (synchronize env st).1 (folder_key f) =
           (Some {| pe_ref := n; pe_call := glob_parse excludes |},
            Some (clone excludes))
  else entry (synchronize env st).1 (folder_key f) = entry st (folder_key f).
Proof.
  intros Hnd Hco Hf. unfold synchronize.
  destruct (add_folders_spec env (folders env) Hnd (st, false)) as (Hc1 & _ & _ & Hat).
  set (p1 := foldl (add_folder env) (st, false) (folders env)) in *.
  destruct (prune_all_spec env (elements (dom (config p1.1))) p1) as (Hc2 & _ & Hent).
  set (p2 := foldl (prune env) p1 _) in *.
  pose proof (compiled_refresh NO_ROOT (globFn env None) p2) as Hc3.
  assert (entry (refresh NO_ROOT (globFn env None) p2).1 (folder_key f) =
          entry p1.1 (folder_key f)) as ->.
  { rewrite entry_refresh_ne by done. rewrite Hent.
    by rewrite (coherent_not_orphaned env f), andb_false_r. }
  specialize (Hat f Hf). cbn in Hat. cbn zeta.
  destruct (outdated _ _ _); [|done].
  destruct Hat as (n & Hn & He). exists n. split; [|done]. cbn in Hc1. lia.
Qed.

Lemma entry_synchronize_no_root env st :
  let excludes := globFn env None in
  if outdated st NO_ROOT excludes then
    ∃ n, compiled st ≤ n < compiled (synchronize env st).1 ∧
         entry (synchronize env st).1 NO_ROOT =
           (Some {| pe_ref := n; pe_call := glob_parse excludes |},
            Some (clone excludes))
  else entry (synchronize env st).1 NO_ROOT = entry st NO_ROOT.
Proof.
  cbn zeta. unfold synchronize.
  pose proof (compiled_add_folders env (folders env) (st, false)) as Hc1.
  set (p1 := foldl (add_folder env) (st, false) (folders env)) in *.
  destruct (prune_all_spec env (elements (dom (config p1.1))) p1) as (Hc2 & _ & Hent).
  set (p2 := foldl (prune env) p1 _) in *.
  assert (entry p2.1 NO_ROOT = entry st NO_ROOT) as He2.
  { rewrite Hent. cbn [orphaned]. rewrite andb_false_r.
    apply (entry_add_folders_no_root env (folders env) (st, false)). }
  rewrite <- (outdated_ext st p2.1) by by apply entry_config.
  unfold refresh. destruct (outdated _ _ _); [|done].
  exists (compiled p2.1). cbn in Hc1. split; [cbn; lia|].
  cbn [fst]. by rewrite entry_install_eq.
Qed.

Lemma elem_of_fetched env root excludes :
  (root, excludes) ∈ fetched env ↔
  (∃ f, f ∈ folders env ∧ root = folder_key f ∧
        excludes = globFn env (Some (folder_uri f))) ∨
  (root = NO_ROOT ∧ excludes = globFn env None).
Proof.
  unfold fetched. rewrite elem_of_app, list_elem_of_fmap, list_elem_of_singleton.
  split.
  - intros [(f & [= -> ->] & Hf)|[= -> ->]]; [left; by exists f|by right].
  - intros [(f & Hf & -> & ->)|[-> ->]]; [left; by exists f|by right].
Qed.

Lemma changed_synchronize env st :
  NoDup (folder_key <$> folders env) → coherent env →
  (synchronize env st).2 = true ↔
  (∃ root excludes, (root, excludes) ∈ fetched env ∧
                    outdated st root excludes = true) ∨
  (∃ r, is_Some (config st !! Some r) ∧ getWorkspaceFolder env (uri_parse r) = None).
Proof.
  intros Hnd Hco. unfold synchronize.
  destruct (add_folders_spec env (folders env) Hnd (st, false)) as (_ & Hch1 & Hoth & _).
  set (p1 := foldl (add_folder env) (st, false) (folders env)) in *.
  destruct (prune_all_spec env (elements (dom (config p1.1))) p1) as (_ & Hch2 & Hent).
  set (p2 := foldl (prune env) p1 _) in *.
  assert (entry p2.1 NO_ROOT = entry st NO_ROOT) as He2.
  { rewrite Hent. cbn [orphaned]. rewrite andb_false_r.
    apply (entry_add_folders_no_root env (folders env) (st, false)). }
  assert (∀ r, orphaned env (Some r) = true →
               config p1.1 !! Some r = config st !! Some r) as Horph.
  { intros r Hr. apply entry_config, (Hoth (Some r)).
    intros (f & Hk & Hf)%list_elem_of_fmap.
    rewrite Hk, (coherent_not_orphaned env f) in Hr; done. }
  rewrite changed_refresh, Hch2, Hch1.
  rewrite (outdated_ext st p2.1) by by apply entry_config.
  cbn [fst snd]. split.
  - intros [[[?|(f & Hf & Ho)]|(k & Hk & Ho)]|Ho]; [done|left|right|left].
    + eexists _, _. split; [|done]. apply elem_of_fetched. left. by exists f.
    + destruct k as [r|]; [|done]. exists r.
      apply elem_of_elements, elem_of_dom in Hk. rewrite (Horph r Ho) in Hk.
      split; [done|]. by apply orphaned_true.
    + eexists _, _. split; [|done]. apply elem_of_fetched. by right.
  - intros [(root & excludes & Hin & Ho)|(r & Hr & Hg)].
    + apply elem_of_fetched in Hin as [(f & Hf & -> & ->)|[-> ->]]; [|by right].
      left; left; right. by exists f.
    + left; right. exists (Some r). apply orphaned_true in Hg.
      split; [|done]. apply elem_of_elements, elem_of_dom. by rewrite (Horph r Hg).
Qed.

Lemma no_root_after_synchronize env st :
  is_Some (config (synchronize env st).1 !! NO_ROOT).
Proof.
  pose proof (entry_synchronize_no_root env st) as He. cbn zeta in He.
  destruct (outdated st NO_ROOT (globFn env None)) eqn:Ho.
  - destruct He as (n & _ & He). apply entry_config_some in He. by rewrite He.
  - apply entry_config in He. rewrite He.
    apply outdated_false in Ho as (c & -> & _). done.
Qed.

Lemma orphan_after_synchronize env st r :
  consistent st → getWorkspaceFolder env (uri_parse r) = None →
  entry (synchronize env st).1 (Some r) = (None, None).
Proof using laws.
  intros Hst Hr%orphaned_true. unfold synchronize.
  assert (consistent (foldl (add_folder env) (st, false) (folders env)).1) as Hp1.
  { apply (generic_foldl (λ p, consistent p.1)); [|done].
    intros; by apply consistent_refresh. }
  set (p1 := foldl (add_folder env) (st, false) (folders env)) in *.
  destruct (prune_all_spec env (elements (dom (config p1.1))) p1) as (_ & _ & Hent).
  rewrite entry_refresh_ne by done. rewrite Hent, Hr, andb_true_r.
  case_bool_decide as Hin; [done|].
  rewrite elem_of_elements in Hin. apply not_elem_of_dom in Hin.
  pose proof (consistent_lookup p1.1 (Some r) Hp1) as Hl. rewrite Hin in Hl.
  unfold entry. rewrite Hin. by destruct (parsed p1.1 !! Some r).
Qed.

(** C1.  In every state an instance can reach (constructed, then any
    sequence of signals and disposals) the config map and the matcher map
    have the same root keys, the matcher stored for a root answers every
    path like a fresh compilation of the config stored for that root, and
    [matches] gives what it would give if it compiled the stored config on
    the spot: no query sees one map ahead of the other. *)
Theorem maps_in_step shouldUpdate st :
  reachable shouldUpdate st →
  dom (config st) = dom (parsed st) ∧
  (∀ root c, config st !! root = Some c →
     ∃ pe, parsed st !! root = Some pe ∧
           ∀ path, pe_call pe path = glob_parse c path) ∧
  (∀ env resource, matches env st resource = matches_by_config env st resource).
Proof using laws.
  intros Hst%consistent_reachable. split; [apply Hst|]. split; [apply Hst|].
  intros. by apply matches_reads_config.
Qed.

(** C2.  [matches] uses the matcher stored under the key of the
    resource's owning folder when there is one, and the [NO_ROOT] matcher
    otherwise; it tests the normalized path relative to the folder's path
    when the resource has an owning folder, and the raw path when it has
    none.  So for a folder at [/ws] whose relative-path helper gives
    [src/file.txt], the matcher is asked about [src/file.txt]. *)
Theorem matches_selects env st resource :
  (∀ f pe, getWorkspaceFolder env resource = Some f →
     parsed st !! folder_key f = Some pe →
     matches env st resource =
       Return (truthy (pe_call pe (normalize
         (relative (uri_fsPath (folder_uri f)) (uri_fsPath resource)))))) ∧
  (∀ f pe, getWorkspaceFolder env resource = Some f →
     parsed st !! folder_key f = None → parsed st !! NO_ROOT = Some pe →
     matches env st resource =
       Return (truthy (pe_call pe (normalize
         (relative (uri_fsPath (folder_uri f)) (uri_fsPath resource)))))) ∧
  (∀ pe, getWorkspaceFolder env resource = None →
     parsed st !! NO_ROOT = Some pe →
     matches env st resource = Return (truthy (pe_call pe (uri_fsPath resource)))) ∧
  (∀ f pe, getWorkspaceFolder env resource = Some f →
     parsed st !! folder_key f = Some pe →
     uri_fsPath (folder_uri f) = "/ws" →
     uri_fsPath resource = "/ws/src/file.txt" →
     relative "/ws" "/ws/src/file.txt" = "src/file.txt" →
     normalize "src/file.txt" = "src/file.txt" →
     matches env st resource = Return (truthy (pe_call pe "src/file.txt"))).
Proof.
  unfold matches. repeat split.
  - by intros f pe -> ->.
  - by intros f pe -> -> ->.
  - by intros pe -> ->.
  - by intros f pe -> -> -> -> -> ->.
Qed.

(** *** Matcher identities *)

Lemma deliver_triggers shouldUpdate env sig st :
  deliver shouldUpdate env sig st =
    if triggers shouldUpdate sig st then updateExcludes env true st else st.
Proof.
  destruct sig as [e|]; cbn; [|done].
  by destruct (configurationListener st), (shouldUpdate e).
Qed.

Lemma refs_install root excludes st :
  refs_below_compiled st → refs_below_compiled (install root excludes st).
Proof.
  intros Hst k pe. cbn. destruct (decide (root = k)) as [->|Hne].
  - rewrite lookup_insert_eq. intros [= <-]. cbn. lia.
  - rewrite lookup_insert_ne by done. intros Hk%Hst. lia.
Qed.

Lemma refs_forget root st : refs_below_compiled st → refs_below_compiled (forget root st).
Proof.
  intros Hst k pe. cbn. destruct (decide (root = k)) as [->|Hne].
  - by rewrite lookup_delete_eq.
  - rewrite lookup_delete_ne by done. apply Hst.
Qed.

Lemma refs_synchronize env st :
  refs_below_compiled st → refs_below_compiled (synchronize env st).1.
Proof.
  assert (∀ root excludes p, refs_below_compiled p.1 →
                             refs_below_compiled (refresh root excludes p).1) as Hr.
  { intros root excludes p Hp. unfold refresh.
    destruct (outdated _ _ _); [|done]. by apply refs_install. }
  intros Hst. unfold synchronize. apply Hr.
  apply (generic_foldl (λ p, refs_below_compiled p.1)).
  { intros p root Hp. rewrite prune_orphaned.
    destruct (orphaned env root); [|done]. by apply refs_forget. }
  apply (generic_foldl (λ p, refs_below_compiled p.1)); [|done].
  intros p f Hp. by apply Hr.
Qed.

(** In a reachable state a newly compiled matcher, whose identity is at
    least [compiled st], is none of the stored ones. *)
Lemma refs_reachable shouldUpdate st :
  reachable shouldUpdate st → refs_below_compiled st.
Proof.
  assert (∀ env b s, refs_below_compiled s →
                     refs_below_compiled (updateExcludes env b s)) as Hu.
  { intros env b s Hs root pe.
    destruct (maps_updateExcludes env b s) as (-> & _ & ->).
    by apply refs_synchronize. }
  induction 1 as [env|env sig st _ IH|st _ IH].
  - apply (Hu env false fresh_instance). intros root pe. cbn.
    by rewrite lookup_empty.
  - rewrite deliver_triggers. destruct (triggers _ _ _); [|done]. by apply Hu.
  - intros root pe. destruct (maps_dispose st) as (-> & _ & -> & _). apply IH.
Qed.

(** C3.  One pass, for every root it fetches a config for (each listed
    folder and [NO_ROOT]), in a workspace whose folders have different
    keys and are known to the workspace service.  When the stored config
    is there and deeply equal to the fetched one ([outdated] is [false]),
    both entries of that root are left as they were, the same matcher
    instance included.  Otherwise the stored config becomes a copy of the
    fetched one, the matcher a newly compiled one (its identity is not
    among those compiled before the pass), and the pass counts as
    changed.  The pass counts as changed only through a fetched root that
    is outdated or through a stored key without folder, and a pass that
    did not change adds no notification to the log. *)
Theorem equality_gate env fromEvent st :
  NoDup (folder_key <$> folders env) → coherent env →
  let st' := updateExcludes env fromEvent st in
  let changed := (synchronize env st).2 in
  (∀ root excludes, (root, excludes) ∈ fetched env →
     if outdated st root excludes then
       config st' !! root = Some (clone excludes) ∧
       (∃ pe, parsed st' !! root = Some pe ∧ pe_call pe = glob_parse excludes ∧
              compiled st ≤ pe_ref pe < compiled st') ∧
       changed = true
     else
       parsed st' !! root = parsed st !! root ∧
       config st' !! root = config st !! root) ∧
  (changed = true ↔
     (∃ root excludes, (root, excludes) ∈ fetched env ∧
                       outdated st root excludes = true) ∨
     (∃ r, is_Some (config st !! Some r) ∧
           getWorkspaceFolder env (uri_parse r) = None)) ∧
  (changed = false → history st' = history st ++ [Synchronized fromEvent]).
Proof.
  intros Hnd Hco st' changed.
  destruct (maps_updateExcludes env fromEvent st) as (Hp & Hc & Hn).
  fold st' in Hp, Hc, Hn. rewrite Hn.
  pose proof (changed_synchronize env st Hnd Hco) as Hch. fold changed in Hch.
  split; [|split; [done|]].
  - intros root excludes Hin. rewrite Hp, Hc.
    assert (if outdated st root excludes then
              ∃ n, compiled st ≤ n < compiled (synchronize env st).1 ∧
                   entry (synchronize env st).1 root =
                     (Some {| pe_ref := n; pe_call := glob_parse excludes |},
                      Some (clone excludes))
            else entry (synchronize env st).1 root = entry st root) as He.
    { apply elem_of_fetched in Hin as [(f & Hf & -> & ->)|[-> ->]].
      - by apply entry_synchronize_folder.
      - apply entry_synchronize_no_root. }
    destruct (outdated st root excludes) eqn:Ho.
    + destruct He as (n & Hn' & He). split; [by eapply entry_config_some|].
      split; [|apply Hch; left; by eauto].
      eexists. split; [by eapply entry_parsed_some|]. by cbn.
    + split; [by apply entry_parsed|by apply entry_config].
  - intros Hno. subst st'. unfold updateExcludes. fold changed. rewrite Hno.
    rewrite andb_false_r. cbn.
    by destruct (surroundings_synchronize env st) as (_ & _ & _ & _ & ->).
Qed.

Lemma no_root_reachable shouldUpdate st :
  reachable shouldUpdate st → is_Some (config st !! NO_ROOT).
Proof.
  induction 1 as [env|env sig st _ IH|st _ IH].
  - assert (config (construct env) = config (updateExcludes env false fresh_instance))
      as -> by done.
    destruct (maps_updateExcludes env false fresh_instance) as (_ & -> & _).
    apply no_root_after_synchronize.
  - assert (is_Some (config (updateExcludes env true st) !! NO_ROOT)) as Hu.
    { destruct (maps_updateExcludes env true st) as (_ & -> & _).
      apply no_root_after_synchronize. }
    unfold deliver. destruct sig; repeat case_match; done.
  - by destruct (maps_dispose st) as (_ & -> & _).
Qed.

(** One pass from a reachable state.  Every string key for whose URI
    the workspace service finds no owning folder is gone from both maps
    after the pass, whatever the string is.  The [NO_ROOT] key, which is
    [null] and equal to no string, is in both maps before and after the
    pass, and its two entries are left as they were when the global config
    is deeply equal to the stored one. *)
Lemma orphans_removed_no_root_kept shouldUpdate env fromEvent st :
  reachable shouldUpdate st →
  let st' := updateExcludes env fromEvent st in
  (∀ r, getWorkspaceFolder env (uri_parse r) = None →
     config st' !! Some r = None ∧ parsed st' !! Some r = None) ∧
  (∀ r, NO_ROOT ≠ Some r) ∧
  (is_Some (config st !! NO_ROOT) ∧ is_Some (parsed st !! NO_ROOT)) ∧
  (is_Some (config st' !! NO_ROOT) ∧ is_Some (parsed st' !! NO_ROOT)) ∧
  (outdated st NO_ROOT (globFn env None) = false →
     config st' !! NO_ROOT = config st !! NO_ROOT ∧
     parsed st' !! NO_ROOT = parsed st !! NO_ROOT).
Proof using laws.
  intros Hreach st'.
  pose proof (consistent_reachable _ _ Hreach) as Hst.
  assert (∀ s, consistent s → is_Some (config s !! NO_ROOT) →
               is_Some (parsed s !! NO_ROOT)) as Hboth.
  { intros s Hs [c Hc]. pose proof (consistent_lookup s NO_ROOT Hs) as Hl.
    rewrite Hc in Hl. by destruct (parsed s !! NO_ROOT). }
  destruct (maps_updateExcludes env fromEvent st) as (Hp & Hc & _).
  fold st' in Hp, Hc.
  assert (is_Some (config st' !! NO_ROOT)) as Hno'
    by (rewrite Hc; apply no_root_after_synchronize).
  pose proof (no_root_reachable _ _ Hreach) as Hno.
  split; [|split; [done|split; [|split]]].
  - intros r Hr. pose proof (orphan_after_synchronize env st r Hst Hr) as He.
    injection He as Hpe Hce. by rewrite Hc, Hp.
  - split; [done|]. by apply Hboth.
  - split; [done|]. apply Hboth; [|done]. by apply consistent_updateExcludes.
  - intros Ho. pose proof (entry_synchronize_no_root env st) as He.
    cbn zeta in He. rewrite Ho in He. rewrite Hc, Hp.
    split; [by apply entry_config|by apply entry_parsed].
Qed.

(** *** Listeners, emitter and disposal *)

Lemma surroundings_updateExcludes env b st :
  toUnbind (updateExcludes env b st) = toUnbind st ∧
  emitterLive (updateExcludes env b st) = emitterLive st ∧
  configurationListener (updateExcludes env b st) = configurationListener st ∧
  workspaceFoldersListener (updateExcludes env b st) = workspaceFoldersListener st.
Proof.
  destruct (surroundings_synchronize env st) as (Hu & He & Hc & Hw & _).
  unfold updateExcludes, fire. cbn.
  destruct (b && _); [destruct (emitterLive _) eqn:E|]; cbn; rewrite ?E; done.
Qed.

Lemma history_updateExcludes env b st :
  history (updateExcludes env b st) =
    history st ++ Synchronized b ::
      (if b && (synchronize env st).2 && emitterLive st
       then [ExpressionChanged] else []).
Proof.
  destruct (surroundings_synchronize env st) as (_ & He & _ & _ & Hh).
  unfold updateExcludes, fire. cbn. rewrite He.
  destruct (b && _); [destruct (emitterLive st)|]; cbn; rewrite Hh; [|done..].
  by rewrite <- app_assoc.
Qed.

Lemma wired_or_released shouldUpdate st :
  reachable shouldUpdate st → wired st ∨ released st.
Proof.
  induction 1 as [env|env sig st _ IH|st _ IH].
  - left.
    destruct (surroundings_updateExcludes env false fresh_instance)
      as (Hu & He & _ & _).
    unfold wired, construct, registerListeners.
    cbn [toUnbind emitterLive configurationListener workspaceFoldersListener].
    by rewrite Hu, He.
  - rewrite deliver_triggers. destruct (triggers _ _ _); [|done].
    unfold wired, released.
    by destruct (surroundings_updateExcludes env true st) as (-> & -> & -> & ->).
  - right. destruct IH as [(Hu & _)|(Hu & He & Hc & Hw)];
      unfold released, dispose; rewrite Hu; cbn; done.
Qed.

Lemma notifications_app l1 l2 :
  notifications (l1 ++ l2) = notifications l1 + notifications l2.
Proof. unfold notifications. by rewrite filter_app, length_app. Qed.

Lemma passes_app l1 l2 : passes (l1 ++ l2) = passes l1 + passes l2.
Proof. unfold passes. by rewrite filter_app, length_app. Qed.

(** C5.  A pass run while the emitter is live adds to the log its own
    mark and then exactly one notification when it was fired by an event
    and changed something, and none otherwise.  Seen from the signals: in a
    reachable state a delivered signal that triggers a pass adds one
    notification exactly when the pass changed something, and a signal that
    triggers none adds nothing.  The pass of the constructor adds no
    notification, whatever it changed. *)
Theorem notification_once shouldUpdate env st :
  reachable shouldUpdate st →
  (∀ fromEvent, emitterLive st = true →
     let st' := updateExcludes env fromEvent st in
     let changed := (synchronize env st).2 in
     history st' = history st ++ Synchronized fromEvent ::
                     (if fromEvent && changed then [ExpressionChanged] else []) ∧
     notifications (history st') =
       notifications (history st) + (if fromEvent && changed then 1 else 0)) ∧
  (∀ sig,
     let st' := deliver shouldUpdate env sig st in
     let changed := (synchronize env st).2 in
     notifications (history st') =
       notifications (history st) +
       (if triggers shouldUpdate sig st && changed then 1 else 0)) ∧
  history (construct env) = [Synchronized false] ∧
  notifications (history (construct env)) = 0.
Proof.
  intros Hreach.
  assert (∀ b, emitterLive st = true →
            history (updateExcludes env b st) =
              history st ++ Synchronized b ::
                (if b && (synchronize env st).2 then [ExpressionChanged] else []) ∧
            notifications (history (updateExcludes env b st)) =
              notifications (history st) +
              (if b && (synchronize env st).2 then 1 else 0)) as Hpass.
  { intros b Hlive. rewrite history_updateExcludes, Hlive, andb_true_r.
    split; [done|]. rewrite notifications_app. f_equal.
    by destruct (b && _). }
  split; [exact Hpass|]. split.
  - intros sig st' changed. subst st'. rewrite deliver_triggers.
    destruct (triggers shouldUpdate sig st) eqn:Ht; cbn [andb]; [|lia].
    assert (emitterLive st = true) as Hlive.
    { destruct (wired_or_released _ _ Hreach) as [(_ & ? & _)|(_ & _ & Hc & Hw)];
        [done|].
      destruct sig; cbn in Ht; [by rewrite Hc in Ht|by rewrite Hw in Ht]. }
    by destruct (Hpass true Hlive) as [_ ->].
  - assert (history (construct env) = history (updateExcludes env false fresh_instance))
      as -> by done.
    rewrite history_updateExcludes. done.
Qed.

(** C6.  With a [shouldUpdate] that answers [false] to every event, any
    sequence of configuration-change signals, each delivered under
    whatever the services (the glob provider among them) answer at that
    time, leaves the whole instance as it was: no pass is added to the
    log and no notification. *)
Theorem shouldUpdate_false_blocks shouldUpdate :
  (∀ e, shouldUpdate e = false) →
  ∀ (events : list (Services * IConfigurationChangeEvent)) st,
  let st' := foldl (λ s ev, deliver shouldUpdate ev.1 (ConfigurationChanged ev.2) s)
                   st events in
  st' = st ∧
  passes (history st') = passes (history st) ∧
  notifications (history st') = notifications (history st).
Proof.
  intros Hno events st st'.
  assert (st' = st) as ->; [|done]. subst st'.
  induction events as [|[env e] events IH]; [done|].
  cbn. rewrite Hno. by destruct (configurationListener st).
Qed.

Lemma matches_throws env st resource :
  parsed st !! NO_ROOT = None →
  (∀ f, getWorkspaceFolder env resource = Some f → parsed st !! folder_key f = None) →
  matches env st resource = Throw TypeError.
Proof.
  intros Hno Hf. unfold matches. rewrite Hno.
  destruct (getWorkspaceFolder env resource) as [f|]; [|done].
  by rewrite (Hf f).
Qed.

Lemma matches_returns_with_no_root env st resource :
  is_Some (parsed st !! NO_ROOT) → ∃ b, matches env st resource = Return b.
Proof.
  intros [pe Hpe]. unfold matches. rewrite Hpe.
  destruct (getWorkspaceFolder env resource) as [f|]; [|by eauto].
  destruct (parsed st !! folder_key f); by eauto.
Qed.

Lemma parsed_no_root_reachable shouldUpdate st :
  reachable shouldUpdate st → is_Some (parsed st !! NO_ROOT).
Proof using laws.
  intros Hreach.
  destruct (no_root_reachable _ _ Hreach) as [c Hc].
  pose proof (consistent_lookup st NO_ROOT (consistent_reachable _ _ Hreach)) as Hl.
  rewrite Hc in Hl. by destruct (parsed st !! NO_ROOT).
Qed.

(** C7, as the code has it.  In every reachable state [matches] returns a
    boolean for every resource and under whatever the workspace service
    answers: a matcher is always stored for [NO_ROOT], so the selected
    matcher is never [undefined].  (With no applicable matcher stored the
    call throws; see [matches_throws].) *)
Theorem matches_returns shouldUpdate st env resource :
  reachable shouldUpdate st →
  is_Some (parsed st !! NO_ROOT) ∧ ∃ b, matches env st resource = Return b.
Proof using laws.
  intros Hno%parsed_no_root_reachable. split; [done|].
  by apply matches_returns_with_no_root.
Qed.

(** C8.  After [dispose()] on a reachable state, delivering any signal,
    or any sequence of signals, leaves the instance exactly as [dispose]
    left it: no pass, no notification, both maps as they were before
    [dispose]; and [matches] goes on returning the booleans it returned
    before. *)
Theorem disposed_is_inert shouldUpdate st :
  reachable shouldUpdate st →
  let d := dispose st in
  (∀ env sig, deliver shouldUpdate env sig d = d) ∧
  (∀ signals : list (Services * Signal),
     foldl (λ s ev, deliver shouldUpdate ev.1 ev.2 s) d signals = d) ∧
  parsed d = parsed st ∧ config d = config st ∧ history d = history st ∧
  (∀ env resource,
     matches env d resource = matches env st resource ∧
     ∃ b, matches env d resource = Return b).
Proof using laws.
  intros Hreach d.
  assert (released d) as (_ & _ & Hc & Hw).
  { destruct (wired_or_released _ _ (reach_dispose _ _ Hreach)) as [(Hu & _)|?];
      [done|done]. }
  assert (∀ env sig, deliver shouldUpdate env sig d = d) as Hinert.
  { intros env sig. rewrite deliver_triggers.
    destruct sig; unfold triggers; by rewrite ?Hc, ?Hw. }
  destruct (maps_dispose st) as (Hp & Hcfg & _ & Hh). fold d in Hp, Hcfg, Hh.
  split; [done|]. split; [|split; [done|split; [done|split; [done|]]]].
  - intros signals. induction signals as [|[env sig] signals IH]; [done|].
    cbn. by rewrite Hinert.
  - intros env resource.
    assert (matches env d resource = matches env st resource) as ->
      by (unfold matches; by rewrite Hp).
    split; [done|]. apply matches_returns_with_no_root.
    by eapply parsed_no_root_reachable.
Qed.

End Properties.

(** ** More on passes, signals and queries *)

Section Passes.
Context {platform : Platform} {laws : PlatformLaws platform}.
Context {eq_laws : EqualsLaws platform}.
Implicit Types (st : State) (env : Services) (root : RootKey)
  (p : State * bool) (excludes : IExpression).

#[local] Abbreviation parsed := mapRootToParsedExpression.
#[local] Abbreviation config := mapRootToExpressionConfig.

Lemma entry_updateExcludes env b st k :
  entry (updateExcludes env b st) k = entry (synchronize env st).1 k.
Proof.
  unfold entry. by destruct (maps_updateExcludes env b st) as (-> & -> & _).
Qed.

Lemma entry_add_folders_other env l : ∀ p k,
  k ∉ folder_key <$> l → entry (foldl (add_folder env) p l).1 k = entry p.1 k.
Proof.
  induction l as [|f l IH]; intros p k Hk; [done|].
  rewrite fmap_cons in Hk. apply not_elem_of_cons in Hk as [Hf Hk].
  cbn [foldl]. rewrite IH by done. unfold add_folder. by apply entry_refresh_ne.
Qed.

Lemma stored_refresh root excludes p :
  is_Some (config (refresh root excludes p).1 !! root).
Proof.
  unfold refresh. destruct (outdated _ _ _) eqn:Ho.
  - cbn. by rewrite lookup_insert_eq.
  - apply outdated_false in Ho as (c & -> & _). done.
Qed.

Lemma still_stored_refresh root excludes p k :
  is_Some (config p.1 !! k) → is_Some (config (refresh root excludes p).1 !! k).
Proof.
  intros Hk. unfold refresh. destruct (outdated _ _ _); [|done]. cbn.
  destruct (decide (root = k)) as [->|Hne];
    [by rewrite lookup_insert_eq|by rewrite lookup_insert_ne].
Qed.

Lemma stored_add_folders env l : ∀ p f,
  f ∈ l → is_Some (config (foldl (add_folder env) p l).1 !! folder_key f).
Proof.
  induction l as [|f0 l IH]; intros p f Hf; [by apply elem_of_nil in Hf|].
  cbn [foldl]. apply elem_of_cons in Hf as [->|Hf]; [|by apply IH].
  apply (generic_foldl (λ q, is_Some (config q.1 !! folder_key f0))).
  - intros q f Hq. by apply still_stored_refresh.
  - apply stored_refresh.
Qed.

(** The keys of the config map after the three steps. *)
Lemma stored_after_synchronize env st k :
  coherent env →
  is_Some (config (synchronize env st).1 !! k) ↔
  k = NO_ROOT ∨ k ∈ folder_key <$> folders env ∨
  (is_Some (config st !! k) ∧ orphaned env k = false).
Proof.
  intros Hco. unfold synchronize.
  set (p1 := foldl (add_folder env) (st, false) (folders env)).
  destruct (prune_all_spec env (elements (dom (config p1.1))) p1) as (_ & _ & Hent).
  set (p2 := foldl (prune env) p1 _) in *.
  assert (∀ k, config p2.1 !! k =
               if bool_decide (k ∈ elements (dom (config p1.1))) && orphaned env k
               then None else config p1.1 !! k) as Hc2.
  { intros k'. specialize (Hent k'). unfold entry in Hent.
    destruct (_ && _); by injection Hent. }
  assert (∀ k, is_Some (config p1.1 !! k) ↔ k ∈ elements (dom (config p1.1))) as Hks.
  { intros k'. by rewrite elem_of_elements, elem_of_dom. }
  destruct (decide (k = NO_ROOT)) as [->|Hk].
  { split; [by left|]. intros _. apply stored_refresh. }
  assert (config (refresh NO_ROOT (globFn env None) p2).1 !! k = config p2.1 !! k) as ->
    by by apply entry_config, entry_refresh_ne.
  rewrite Hc2. split.
  - intros Hs. right.
    destruct (orphaned env k) eqn:Ho.
    + rewrite andb_true_r in Hs. case_bool_decide as Hin; [by destruct Hs|].
      apply Hks in Hs. done.
    + rewrite andb_false_r in Hs.
      destruct (decide (k ∈ folder_key <$> folders env)) as [|Hnot]; [by left|].
      right. split; [|done].
      assert (config p1.1 !! k = config st !! k) as <-; [|done].
      exact (entry_config _ _ _ (entry_add_folders_other env _ (st, false) k Hnot)).
  - intros [?|[Hin|[Hs Ho]]]; [done|..].
    + apply list_elem_of_fmap in Hin as (f & -> & Hf).
      rewrite (coherent_not_orphaned env f), andb_false_r by done.
      by apply stored_add_folders.
    + rewrite Ho, andb_false_r.
      apply (generic_foldl (λ q, is_Some (config q.1 !! k))); [|done].
      intros q f Hq. by apply still_stored_refresh.
Qed.

Lemma listed_folder_stored env fromEvent st f :
  coherent env → f ∈ folders env →
  is_Some (config (updateExcludes env fromEvent st) !! folder_key f).
Proof.
  intros Hco Hf. destruct (maps_updateExcludes env fromEvent st) as (_ & -> & _).
  apply stored_after_synchronize; [done|]. right; left. by apply list_elem_of_fmap_2.
Qed.

(** What a pass leaves alone: a key that is neither [NO_ROOT] nor the
    key of a listed folder, and for whose URI the workspace service finds
    an owner, keeps both its entries, the matcher instance included. *)
Theorem pass_leaves_owned_keys env fromEvent st k :
  k ≠ NO_ROOT → k ∉ folder_key <$> folders env → orphaned env k = false →
  parsed (updateExcludes env fromEvent st) !! k = parsed st !! k ∧
  config (updateExcludes env fromEvent st) !! k = config st !! k.
Proof.
  intros Hk Hnot Ho.
  assert (entry (updateExcludes env fromEvent st) k = entry st k) as He.
  { rewrite entry_updateExcludes. unfold synchronize.
    rewrite entry_refresh_ne by done.
    destruct (prune_all_spec env
                (elements (dom (config (foldl (add_folder env) (st, false)
                                          (folders env)).1)))
                (foldl (add_folder env) (st, false) (folders env)))
      as (_ & _ & Hent).
    rewrite Hent, Ho, andb_false_r.
    by apply (entry_add_folders_other env _ (st, false)). }
  split; [by apply entry_parsed|by apply entry_config].
Qed.

(** The roots stored after a pass, in a workspace that knows its
    folders: [NO_ROOT], every listed folder, and the keys stored before
    for whose URI the workspace service still finds an owner; nothing
    else. *)
Theorem stored_roots_after_pass env fromEvent st k :
  coherent env →
  is_Some (config (updateExcludes env fromEvent st) !! k) ↔
  k = NO_ROOT ∨ k ∈ folder_key <$> folders env ∨
  (is_Some (config st !! k) ∧ orphaned env k = false).
Proof.
  intros Hco. destruct (maps_updateExcludes env fromEvent st) as (_ & -> & _).
  by apply stored_after_synchronize.
Qed.

Lemma up_to_date_after_synchronize env st root excludes :
  NoDup (folder_key <$> folders env) → coherent env →
  (root, excludes) ∈ fetched env →
  outdated (synchronize env st).1 root excludes = false.
Proof using eq_laws.
  intros Hnd Hco Hin.
  assert (if outdated st root excludes then
            ∃ n, compiled st ≤ n < compiled (synchronize env st).1 ∧
                 entry (synchronize env st).1 root =
                   (Some {| pe_ref := n; pe_call := glob_parse excludes |},
                    Some (clone excludes))
          else entry (synchronize env st).1 root = entry st root) as He.
  { apply elem_of_fetched in Hin as [(f & Hf & -> & ->)|[-> ->]].
    - by apply entry_synchronize_folder.
    - apply entry_synchronize_no_root. }
  destruct (outdated st root excludes) eqn:Ho.
  - destruct He as (n & _ & He). apply entry_config_some in He.
    unfold outdated. rewrite He. by rewrite equals_clone.
  - by rewrite (outdated_ext st _ root excludes (entry_config _ _ _ He)).
Qed.

(** After a pass nothing the pass fetched is outdated: for every listed
    folder and for [NO_ROOT] a config is stored that is deeply equal to
    the one the provider gave. *)
Theorem up_to_date_after_pass env fromEvent st root excludes :
  NoDup (folder_key <$> folders env) → coherent env →
  (root, excludes) ∈ fetched env →
  ∃ stored, config (updateExcludes env fromEvent st) !! root = Some stored ∧
            equals stored excludes = true.
Proof using eq_laws.
  intros Hnd Hco Hin. apply outdated_false.
  rewrite (outdated_ext (synchronize env st).1).
  - by apply up_to_date_after_synchronize.
  - by destruct (maps_updateExcludes env fromEvent st) as (_ & -> & _).
Qed.

Lemma add_folders_fixpoint env l : ∀ p,
  (∀ f, f ∈ l → outdated p.1 (folder_key f) (globFn env (Some (folder_uri f))) = false) →
  foldl (add_folder env) p l = p.
Proof.
  induction l as [|f l IH]; intros p Hl; [done|].
  cbn [foldl]. unfold add_folder at 2, refresh.
  rewrite (Hl f) by by left. apply IH. intros g Hg. apply Hl. by right.
Qed.

Lemma prune_fixpoint env ks : ∀ p,
  (∀ k, k ∈ ks → orphaned env k = false) → foldl (prune env) p ks = p.
Proof.
  induction ks as [|k ks IH]; intros p Hks; [done|].
  cbn [foldl]. rewrite prune_orphaned, (Hks k) by by left.
  apply IH. intros k' Hk'. apply Hks. by right.
Qed.

Lemma synchronize_fixpoint env st :
  (∀ root excludes, (root, excludes) ∈ fetched env →
                    outdated st root excludes = false) →
  (∀ k, is_Some (config st !! k) → orphaned env k = false) →
  synchronize env st = (st, false).
Proof.
  intros Hup Hown. unfold synchronize.
  rewrite add_folders_fixpoint.
  - rewrite prune_fixpoint.
    + unfold refresh. cbn [fst]. rewrite Hup; [done|].
      apply elem_of_fetched. by right.
    + intros k Hk%elem_of_elements%elem_of_dom. by apply Hown.
  - intros f Hf. cbn [fst]. apply Hup, elem_of_fetched. left. by exists f.
Qed.

Lemma owned_after_synchronize env st k :
  is_Some (config (synchronize env st).1 !! k) → orphaned env k = false.
Proof.
  unfold synchronize.
  set (p1 := foldl (add_folder env) (st, false) (folders env)).
  destruct (prune_all_spec env (elements (dom (config p1.1))) p1) as (_ & _ & Hent).
  set (p2 := foldl (prune env) p1 _) in *.
  destruct k as [r|]; [|done].
  rewrite (entry_config _ _ _ (entry_refresh_ne NO_ROOT (globFn env None) p2 (Some r)
                                 ltac:(done))).
  specialize (Hent (Some r)). unfold entry in Hent.
  destruct (orphaned env (Some r)) eqn:Ho; [|done].
  rewrite andb_true_r in Hent. case_bool_decide as Hin.
  - injection Hent as _ ->. by intros [? ?].
  - injection Hent as _ ->. intros Hs. destruct Hin.
    by apply elem_of_elements, elem_of_dom.
Qed.

(** A pass that follows a pass, with the services answering the same,
    changes nothing and notifies nobody: it only adds its own mark to the
    log. *)
Theorem second_pass_is_silent env first second st :
  NoDup (folder_key <$> folders env) → coherent env →
  updateExcludes env second (updateExcludes env first st) =
    observe (Synchronized second) (updateExcludes env first st).
Proof using eq_laws.
  intros Hnd Hco.
  destruct (maps_updateExcludes env first st) as (_ & Hc & _).
  set (st1 := updateExcludes env first st) in *.
  assert (synchronize env st1 = (st1, false)) as Hfix.
  { apply synchronize_fixpoint.
    - intros root excludes Hin. rewrite (outdated_ext (synchronize env st).1).
      + by apply up_to_date_after_synchronize.
      + by rewrite Hc.
    - intros k. rewrite Hc. apply owned_after_synchronize. }
  unfold updateExcludes at 1. fold st1. rewrite Hfix. cbn [fst snd].
  by rewrite andb_false_r.
Qed.

(** The log of a reachable instance starts with the constructor's pass,
    holds no other pass that was not fired by a signal, and never holds
    more notifications than passes fired by a signal. *)
Theorem notifications_bounded_by_event_passes shouldUpdate st :
  reachable shouldUpdate st →
  (∃ rest, history st = Synchronized false :: rest ∧ Synchronized false ∉ rest) ∧
  notifications (history st) ≤ event_passes (history st).
Proof.
  induction 1 as [env|env sig st _ IH|st _ IH].
  - assert (history (construct env) = history (updateExcludes env false fresh_instance))
      as -> by done.
    rewrite history_updateExcludes. cbn. split; [|done].
    exists []. split; [done|]. apply not_elem_of_nil.
  - rewrite deliver_triggers. destruct (triggers _ _ _); [|done].
    rewrite history_updateExcludes. destruct IH as [(rest & Hrest & Hnot) Hle].
    split.
    + rewrite Hrest. eexists. split; [by rewrite <- app_comm_cons|].
      rewrite elem_of_app, elem_of_cons. intros [?|[?|Hin]]; [done..|].
      destruct (_ && _); [|by apply elem_of_nil in Hin].
      by apply list_elem_of_singleton in Hin.
    + rewrite notifications_app. unfold event_passes in *.
      rewrite filter_app, length_app.
      destruct (true && (synchronize env st).2 && emitterLive st).
      * assert (notifications [Synchronized true; ExpressionChanged] = 1) as ->
          by reflexivity.
        assert (length (filter (λ o, o = Synchronized true)
                          [Synchronized true; ExpressionChanged]) = 1) as ->
          by reflexivity.
        lia.
      * assert (notifications [Synchronized true] = 0) as -> by reflexivity.
        lia.
  - by destruct (maps_dispose st) as (_ & _ & _ & ->).
Qed.

(** The answer for a resource depends on one map entry only.  When a
    matcher is stored for the resource's owning folder, that entry decides
    and neither the [NO_ROOT] entry nor any other is consulted: the root's
    config replaces the global one, it is not merged with it.  When the
    resource has no owning folder, the [NO_ROOT] entry decides. *)
Theorem matches_reads_one_entry env st st' resource :
  (∀ f, getWorkspaceFolder env resource = Some f →
        is_Some (parsed st !! folder_key f) →
        parsed st' !! folder_key f = parsed st !! folder_key f →
        matches env st' resource = matches env st resource) ∧
  (getWorkspaceFolder env resource = None →
   parsed st' !! NO_ROOT = parsed st !! NO_ROOT →
   matches env st' resource = matches env st resource).
Proof.
  unfold matches. split.
  - intros f -> [pe Hpe] ->. by rewrite Hpe.
  - by intros -> ->.
Qed.

(** After a pass on a reachable instance, a resource whose owning folder
    is a listed folder is decided by the config stored for that folder,
    tested on the normalized path relative to the folder; the [NO_ROOT]
    config plays no part. *)
Theorem resource_under_root_uses_root_config shouldUpdate env fromEvent st resource f :
  reachable shouldUpdate st → coherent env →
  getWorkspaceFolder env resource = Some f → f ∈ folders env →
  ∃ c, config (updateExcludes env fromEvent st) !! folder_key f = Some c ∧
       matches env (updateExcludes env fromEvent st) resource =
         Return (truthy (glob_parse c (normalize
           (relative (uri_fsPath (folder_uri f)) (uri_fsPath resource))))).
Proof using laws.
  intros Hreach Hco Hown Hf.
  set (st' := updateExcludes env fromEvent st).
  assert (consistent st') as Hst'
    by (apply consistent_updateExcludes; by eapply consistent_reachable).
  assert (is_Some (config st' !! folder_key f)) as [c Hc].
  { by apply listed_folder_stored. }
  exists c. split; [done|].
  rewrite (matches_reads_config env st' resource Hst').
  unfold matches_by_config. by rewrite Hown, Hc.
Qed.

(** [dispose] on a reachable instance releases the emitter and both
    subscriptions and empties [toUnbind]; a second [dispose] does
    nothing. *)
Theorem dispose_releases_and_is_idempotent shouldUpdate st :
  reachable shouldUpdate st →
  released (dispose st) ∧ dispose (dispose st) = dispose st.
Proof.
  intros Hreach. split; [|done].
  destruct (wired_or_released _ _ (reach_dispose _ _ Hreach)) as [(Hu & _)|?]; done.
Qed.

(** On a reachable instance a configuration change that passes
    [shouldUpdate] does exactly what a change of the workspace folders
    does. *)
Theorem relevant_configuration_change_is_a_folder_change shouldUpdate env e st :
  reachable shouldUpdate st → shouldUpdate e = true →
  deliver shouldUpdate env (ConfigurationChanged e) st =
    deliver shouldUpdate env WorkspaceFoldersChanged st.
Proof.
  intros Hreach He. cbn. rewrite He.
  destruct (wired_or_released _ _ Hreach) as [(_ & _ & -> & ->)|(_ & _ & -> & ->)];
    done.
Qed.

Lemma compiled_add_folders_fresh env l :
  NoDup (folder_key <$> l) → ∀ p,
  (∀ f, f ∈ l → config p.1 !! folder_key f = None) →
  compiled (foldl (add_folder env) p l).1 = compiled p.1 + length l.
Proof.
  induction l as [|f l IH]; intros Hnd p Hp; [cbn; lia|].
  rewrite fmap_cons in Hnd. apply NoDup_cons in Hnd as [Hf Hnd].
  cbn [foldl length]. rewrite IH; [|done|].
  - unfold add_folder, refresh, outdated. rewrite (Hp f) by by left. cbn. lia.
  - intros g Hg. unfold add_folder.
    assert (folder_key g ≠ folder_key f) as Hne.
    { intros E. apply Hf. rewrite <- E. by apply list_elem_of_fmap_2. }
    rewrite (entry_config _ _ _ (entry_refresh_ne _ _ p _ Hne)).
    apply Hp. by right.
Qed.

(** The constructor leaves the instance wired, with one pass in the log
    and no notification, and with [NO_ROOT] and every folder of the
    workspace stored and nothing else; when the folders have different
    keys it has compiled one matcher per folder and one for [NO_ROOT]. *)
Theorem constructed_instance env :
  coherent env →
  wired (construct env) ∧
  history (construct env) = [Synchronized false] ∧
  (∀ k, is_Some (config (construct env) !! k) ↔
        k = NO_ROOT ∨ k ∈ folder_key <$> folders env) ∧
  (NoDup (folder_key <$> folders env) →
   compiled (construct env) = S (length (folders env))).
Proof.
  intros Hco. split; [|split; [|split]].
  - destruct (surroundings_updateExcludes env false fresh_instance)
      as (Hu & He & _ & _).
    unfold wired, construct, registerListeners.
    cbn [toUnbind emitterLive configurationListener workspaceFoldersListener].
    by rewrite Hu, He.
  - assert (history (construct env) = history (updateExcludes env false fresh_instance))
      as -> by done.
    by rewrite history_updateExcludes.
  - intros k.
    assert (config (construct env) = config (synchronize env fresh_instance).1) as ->
      by by destruct (maps_updateExcludes env false fresh_instance) as (_ & <- & _).
    rewrite stored_after_synchronize by done. cbn. rewrite lookup_empty.
    split; [intros [?|[?|[[? ?] _]]]; by auto|intros [?|?]; by auto].
  - intros Hnd.
    assert (compiled (construct env) = compiled (synchronize env fresh_instance).1) as ->
      by by destruct (maps_updateExcludes env false fresh_instance) as (_ & _ & <-).
    unfold synchronize.
    set (p1 := foldl (add_folder env) (fresh_instance, false) (folders env)).
    assert (compiled p1.1 = length (folders env)) as Hc1.
    { unfold p1. rewrite compiled_add_folders_fresh; [done..|].
      intros f _. cbn. apply lookup_empty. }
    destruct (prune_all_spec env (elements (dom (config p1.1))) p1) as (Hc2 & _ & Hent).
    set (p2 := foldl (prune env) p1 _) in *.
    assert (config p2.1 !! NO_ROOT = None) as Hno.
    { specialize (Hent NO_ROOT). cbn [orphaned] in Hent.
      rewrite andb_false_r in Hent. rewrite (entry_config _ _ _ Hent). unfold p1.
      rewrite (entry_config _ _ _
                 (entry_add_folders_no_root env _ (fresh_instance, false))).
      apply lookup_empty. }
    unfold refresh, outdated. rewrite Hno. cbn. lia.
Qed.

End Passes.

Import Demo.

Lemma started_reachable shouldUpdate : reachable shouldUpdate started.
Proof. apply reach_construct. Defined.

Lemma services_edited_keys : NoDup (folder_key <$> folders services_edited).
Proof. apply NoDup_singleton. Defined.

Lemma services_edited_coherent : coherent services_edited.
Proof.
  intros f Hf. apply list_elem_of_singleton in Hf. subst f. by eexists.
Defined.

Lemma maps_in_step_witness :
  dom (mapRootToExpressionConfig started) = dom (mapRootToParsedExpression started) ∧
  ∀ env resource,
    matches env started resource = matches_by_config env started resource.
Proof.
  pose proof (maps_in_step always started (started_reachable always))
    as (Hdom & _ & Hread).
  split; [exact Hdom|exact Hread].
Defined.

Lemma matches_selects_witness :
  matches services started ("/ws/build/out.txt" : URI)
  = Return (truthy (first_match [("build/**", true)] "build/out.txt")).
Proof.
  pose proof (matches_selects services started ("/ws/build/out.txt" : URI))
    as (Hroot & _).
  apply (Hroot ws {| pe_ref := 0; pe_call := first_match [("build/**", true)] |});
    vm_compute; reflexivity.
Defined.

Lemma equality_gate_witness :
  let st' := updateExcludes services_edited true started in
  mapRootToParsedExpression st' !! folder_key ws
    = mapRootToParsedExpression started !! folder_key ws ∧
  mapRootToExpressionConfig st' !! NO_ROOT = Some [("**/*.tmp", true)].
Proof.
  pose proof (equality_gate services_edited true started
                services_edited_keys services_edited_coherent) as (Hroot & _).
  split.
  - assert ((folder_key ws, [("build/**", true)]) ∈ fetched services_edited) as Hin
      by (vm_compute; left).
    specialize (Hroot _ _ Hin).
    assert (outdated started (folder_key ws) [("build/**", true)] = false) as Ho
      by (vm_compute; reflexivity).
    rewrite Ho in Hroot. apply Hroot.
  - assert ((NO_ROOT, [("**/*.tmp", true)]) ∈ fetched services_edited) as Hin
      by (vm_compute; right; left).
    specialize (Hroot _ _ Hin).
    assert (outdated started NO_ROOT [("**/*.tmp", true)] = true) as Ho
      by (vm_compute; reflexivity).
    rewrite Ho in Hroot. apply Hroot.
Defined.

(** A removed root that lies in no other root goes, with any key text;
    the [NO_ROOT] entries stay. *)
Example orphans_removed_no_root_kept_example :
  let st' := updateExcludes services_no_root true started in
  mapRootToExpressionConfig st' !! Some "file:///ws" = None ∧
  mapRootToParsedExpression st' !! Some "file:///ws" = None ∧
  is_Some (mapRootToExpressionConfig st' !! NO_ROOT) ∧
  is_Some (mapRootToParsedExpression st' !! NO_ROOT).
Proof.
  pose proof (orphans_removed_no_root_kept always services_no_root true started
                (started_reachable always)) as (Hgone & _ & _ & Hkept & _).
  destruct (Hgone "file:///ws" eq_refl) as [Hc Hp].
  destruct Hkept as [Hkc Hkp].
  repeat split; assumption.
Qed.

(** C4, on a workspace with a root inside another root.  The instance is
    built with the roots [/ws] and [/ws/sub]; then [/ws/sub] leaves the
    workspace and the folders signal is delivered.  The pass looks up an
    owner for the URI of the stored key, finds [/ws], and keeps the key:
    the config and the matcher of the root that no longer exists stay in
    both maps.  The pass counts as unchanged, so no notification is sent,
    although [matches] now answers differently for a resource under the
    removed root.  ([orphans_removed_no_root_kept] is what the loop does
    achieve.) *)
Theorem removed_nested_root_stays :
  let before := construct services_nested in
  let after := deliver always services WorkspaceFoldersChanged before in
  sub ∈ folders services_nested ∧ (sub ∉ folders services) ∧
  mapRootToExpressionConfig after !! folder_key sub = Some [("out/**", true)] ∧
  is_Some (mapRootToParsedExpression after !! folder_key sub) ∧
  is_Some (mapRootToParsedExpression after !! NO_ROOT) ∧
  history after = history before ++ [Synchronized true] ∧
  matches services_nested before ("/ws/sub/out/a.txt" : URI) = Return true ∧
  matches services after ("/ws/sub/out/a.txt" : URI) = Return false.
Proof.
  split; [by right; left|].
  split; [intros Hin%list_elem_of_singleton; discriminate|].
  vm_compute. repeat split; by eexists.
Qed.

Lemma notification_once_witness :
  notifications (history (deliver always services_no_root WorkspaceFoldersChanged started))
  = 1 ∧
  notifications (history (construct services)) = 0.
Proof.
  pose proof (notification_once always services_no_root started
                (started_reachable always)) as (_ & Hsig & _).
  pose proof (notification_once always services started
                (started_reachable always)) as (_ & _ & _ & Hnew).
  split; [|exact Hnew].
  rewrite (Hsig WorkspaceFoldersChanged). vm_compute. reflexivity.
Defined.

Lemma shouldUpdate_false_blocks_witness :
  foldl (λ s ev, deliver never ev.1 (ConfigurationChanged ev.2) s) started
        [(services_edited, ["files.exclude"]); (services_no_root, ["search.exclude"])]
  = started.
Proof.
  exact (proj1 (shouldUpdate_false_blocks never (λ _, eq_refl)
                  [(services_edited, ["files.exclude"]);
                   (services_no_root, ["search.exclude"])] started)).
Defined.

(** The same first event reaches the maps once [shouldUpdate] lets it
    through. *)
Example shouldUpdate_true_lets_through :
  mapRootToExpressionConfig
    (deliver always services_edited (ConfigurationChanged ["files.exclude"]) started)
    !! NO_ROOT
  = Some [("**/*.tmp", true)].
Proof. vm_compute. reflexivity. Qed.

(** C7, as stated, fails: with no matcher stored, not even for [NO_ROOT],
    [matches] calls [undefined] and throws instead of returning [false]. *)
Lemma matches_without_matcher_throws :
  mapRootToParsedExpression hollow = ∅ ∧
  matches services hollow ("/outside/app.log" : URI) = Throw TypeError ∧
  matches services hollow ("/outside/app.log" : URI) ≠ Return false.
Proof. repeat split. discriminate. Qed.

Lemma matches_returns_witness :
  is_Some (mapRootToParsedExpression started !! NO_ROOT) ∧
  ∃ b, matches services started ("/outside/app.log" : URI) = Return b.
Proof.
  exact (matches_returns always started services ("/outside/app.log" : URI)
           (started_reachable always)).
Defined.

Lemma disposed_is_inert_witness :
  deliver always services_no_root WorkspaceFoldersChanged (dispose started)
  = dispose started.
Proof.
  pose proof (disposed_is_inert always started (started_reachable always))
    as (Hinert & _).
  exact (Hinert services_no_root WorkspaceFoldersChanged).
Defined.

(** Without [dispose], the same signal removes the root. *)
Example live_instance_follows_folders :
  mapRootToExpressionConfig
    (deliver always services_no_root WorkspaceFoldersChanged started)
    !! Some "file:///ws"
  = None ∧
  mapRootToExpressionConfig started !! Some "file:///ws" = Some [("build/**", true)].
Proof. vm_compute. split; reflexivity. Qed.

Example scenario_root_pattern :
  matches services (construct services) ("/ws/build/out.txt" : URI) = Return true.
Proof. vm_compute. reflexivity. Qed.

Example scenario_root_replaces_global :
  matches services (construct services) ("/ws/app.log" : URI) = Return false.
Proof. vm_compute. reflexivity. Qed.

Example scenario_outside :
  matches services (construct services) ("/outside/app.log" : URI) = Return true.
Proof. vm_compute. reflexivity. Qed.


Lemma services_coherent : coherent services.
Proof.
  intros f Hf. apply list_elem_of_singleton in Hf. subst f. by eexists.
Defined.

Lemma ws_listed : ws ∈ folders services_edited.
Proof. by left. Defined.

Lemma pass_leaves_owned_keys_witness :
  let before := construct services_nested in
  mapRootToParsedExpression (updateExcludes services true before) !! folder_key sub
    = mapRootToParsedExpression before !! folder_key sub ∧
  mapRootToExpressionConfig (updateExcludes services true before) !! folder_key sub
    = mapRootToExpressionConfig before !! folder_key sub.
Proof.
  apply (pass_leaves_owned_keys services true (construct services_nested)
           (folder_key sub)).
  - discriminate.
  - intros Hin%list_elem_of_singleton. discriminate.
  - reflexivity.
Defined.

Lemma stored_roots_after_pass_witness :
  is_Some (mapRootToExpressionConfig (updateExcludes services_no_root true started)
             !! Some "file:///ws") ↔
  Some "file:///ws" = NO_ROOT ∨
  Some "file:///ws" ∈ folder_key <$> folders services_no_root ∨
  (is_Some (mapRootToExpressionConfig started !! Some "file:///ws") ∧
   orphaned services_no_root (Some "file:///ws") = false).
Proof.
  apply (stored_roots_after_pass services_no_root true started (Some "file:///ws")).
  intros f Hf. by apply elem_of_nil in Hf.
Defined.

Lemma up_to_date_after_pass_witness :
  ∃ stored,
    mapRootToExpressionConfig (updateExcludes services_edited true started) !! NO_ROOT
      = Some stored ∧
    equals stored [("**/*.tmp", true)] = true.
Proof.
  apply (up_to_date_after_pass services_edited true started NO_ROOT
           [("**/*.tmp", true)] services_edited_keys services_edited_coherent).
  vm_compute. right. left.
Defined.

Lemma second_pass_is_silent_witness :
  updateExcludes services_edited true (updateExcludes services_edited true started)
  = observe (Synchronized true) (updateExcludes services_edited true started).
Proof.
  exact (second_pass_is_silent services_edited true true started
           services_edited_keys services_edited_coherent).
Defined.

Lemma notifications_bounded_by_event_passes_witness :
  notifications (history (deliver always services_edited WorkspaceFoldersChanged started))
  ≤ event_passes (history (deliver always services_edited WorkspaceFoldersChanged started)).
Proof.
  exact (proj2 (notifications_bounded_by_event_passes always _
                  (reach_deliver always services_edited WorkspaceFoldersChanged
                     started (started_reachable always)))).
Defined.

Lemma matches_reads_one_entry_witness :
  matches services (updateExcludes services_edited true started)
    ("/ws/build/out.txt" : URI)
  = matches services started ("/ws/build/out.txt" : URI).
Proof.
  pose proof (matches_reads_one_entry services started
                (updateExcludes services_edited true started)
                ("/ws/build/out.txt" : URI)) as [Hroot _].
  apply (Hroot ws); [reflexivity|by eexists|vm_compute; reflexivity].
Defined.

Lemma resource_under_root_uses_root_config_witness :
  ∃ c, mapRootToExpressionConfig (updateExcludes services_edited true started)
         !! folder_key ws = Some c ∧
       matches services_edited (updateExcludes services_edited true started)
         ("/ws/build/out.txt" : URI)
       = Return (truthy (glob_parse c (normalize
           (relative (uri_fsPath (folder_uri ws))
              (uri_fsPath ("/ws/build/out.txt" : URI)))))).
Proof.
  exact (resource_under_root_uses_root_config always services_edited true started
           ("/ws/build/out.txt" : URI) ws (started_reachable always)
           services_edited_coherent eq_refl ws_listed).
Defined.

Lemma dispose_releases_and_is_idempotent_witness :
  released (dispose started) ∧ dispose (dispose started) = dispose started.
Proof.
  exact (dispose_releases_and_is_idempotent always started (started_reachable always)).
Defined.

Lemma relevant_configuration_change_is_a_folder_change_witness :
  deliver always services_edited (ConfigurationChanged ["files.exclude"]) started
  = deliver always services_edited WorkspaceFoldersChanged started.
Proof.
  exact (relevant_configuration_change_is_a_folder_change always services_edited
           ["files.exclude"] started (started_reachable always) eq_refl).
Defined.

Lemma constructed_instance_witness :
  wired started ∧ history started = [Synchronized false] ∧
  compiled started = 2.
Proof.
  pose proof (constructed_instance services services_coherent)
    as (Hw & Hh & _ & Hn).
  split; [exact Hw|]. split; [exact Hh|].
  apply Hn. apply NoDup_singleton.
Defined.

End GlobMatcher.

(* ===================================================================== *)
(** * EmbeddedCodeEditorWidget and EmbeddedDiffEditorWidget               *)
(* ===================================================================== *)

Module EmbeddedEditor.

(** Editor options ([IEditorOptions], [IDiffEditorOptions]) with
    [objects.mixin(destination, source, true)]: the destination with the
    options of the source written over it. *)
Class Options := {
  IEditorOptions : Type;
  mixin : IEditorOptions → IEditorOptions → IEditorOptions;
}.

(** What the proofs below use of a mix [f] (destination first, source
    second).  None of it is associativity: a deep mix does not associate
    when an option is an object in one operand and a plain value in
    another.
    - mixing a value into itself changes nothing;
    - what is mixed in last wins over an earlier mix of the same source;
    - a source just mixed in is on top: mixing it in again changes
      nothing;
    - a mix with the destination underneath absorbs the destination;
    - between two mixes of the same source, only the later one counts;
    - after a source, a mix that starts from that source continues it;
    - if [o] is on top of [e], and [e] with [q] mixed in agrees with [q]
      once [o] is mixed over both, they still agree once [o] with more
      mixed into it is mixed over both. *)
Class MixLaws {A : Type} (f : A → A → A) := {
  mix_idemp a : f a a = a;
  mix_last_wins a b : f (f b a) b = f a b;
  mix_on_top a b : f (f a b) b = f a b;
  mix_under a b : f a (f a b) = f a b;
  mix_absorbs a b c : f (f (f a b) c) b = f (f a c) b;
  mix_continues a b c : f (f a b) (f b c) = f (f a b) c;
  mix_resync e q o n :
    f e o = e → f (f e q) o = f q o → f (f e q) (f o n) = f q (f o n);
}.

(** Contract of [objects.mixin] on editor options: the laws above.
    [deep_options_laws] below shows that the overwriting deep mix has
    them. *)
Class OptionsLaws (O : Options) := mixin_laws :: MixLaws (@mixin O).

(** A base editor class ([CodeEditor], [DiffEditorWidget]) and the parent
    editor ([ICodeEditor]): built from options, updated with options,
    and answering with the raw options in effect. *)
Class EditorBase {O : Options} (E : Type) := {
  base_new : IEditorOptions → E;
  base_updateOptions : IEditorOptions → E → E;
  getRawConfiguration : E → IEditorOptions;
}.

(** Contract of a base editor: it starts with the options it is built
    from, and [updateOptions] mixes the new options over the ones in
    effect. *)
Class EditorBaseLaws {O : Options} (E : Type) `{!EditorBase E} := {
  raw_new o : getRawConfiguration (base_new o) = o;
  raw_updateOptions o e :
    getRawConfiguration (base_updateOptions o e) = mixin (getRawConfiguration e) o;
}.

Section Widget.
Context {O : Options} {E : Type} `{!EditorBase E}.

(** An embedded widget: the state of its base class and the private
    [_overwriteOptions].  ([_parentEditor] is the parent of the system
    state below.) *)
Record Embedded := { base : E; _overwriteOptions : IEditorOptions }.

(** The constructor: [super(..., parentEditor.getRawConfiguration(), ...)],
    then [super.updateOptions(this._overwriteOptions)]. *)
Definition construct (options : IEditorOptions) (parentRaw : IEditorOptions)
    : Embedded :=
  let e := base_new parentRaw in
  {| base := base_updateOptions options e; _overwriteOptions := options |}.

(** [_onParentConfigurationChanged(e)], with what
    [this._parentEditor.getRawConfiguration()] answers. *)
Definition _onParentConfigurationChanged (parentRaw : IEditorOptions)
    (w : Embedded) : Embedded :=
  let e := base_updateOptions parentRaw (base w) in
  {| base := base_updateOptions (_overwriteOptions w) e;
     _overwriteOptions := _overwriteOptions w |}.

(** [updateOptions(newOptions)]: mix into the overwrite set, then
    [super.updateOptions] with the whole set. *)
Definition updateOptions (newOptions : IEditorOptions) (w : Embedded) : Embedded :=
  let overwrite := mixin (_overwriteOptions w) newOptions in
  {| base := base_updateOptions overwrite (base w);
     _overwriteOptions := overwrite |}.

(** The options in effect in the widget. *)
Definition effective (w : Embedded) : IEditorOptions := getRawConfiguration (base w).

End Widget.

Arguments Embedded {O} E.

Section System.
Context {O : Options} {Parent E : Type} `{!EditorBase Parent} `{!EditorBase E}.

(** What can happen to a parent editor and its embedded widget: the
    widget's [updateOptions] is called, or the parent's options are
    updated and its configuration-change event reaches the widget. *)
Inductive Step :=
  | WidgetUpdateOptions (newOptions : IEditorOptions)
  | ParentUpdateOptions (newOptions : IEditorOptions).

Definition step (s : Parent * Embedded E) (a : Step) : Parent * Embedded E :=
  match a with
  | WidgetUpdateOptions n => (s.1, updateOptions n s.2)
  | ParentUpdateOptions n =>
      let parent := base_updateOptions n s.1 in
      (parent, _onParentConfigurationChanged (getRawConfiguration parent) s.2)
  end.

(** A widget constructed on a parent, then any sequence of steps. *)
Definition run (parent : Parent) (options : IEditorOptions) (steps : list Step)
    : Parent * Embedded E :=
  foldl step (parent, construct options (getRawConfiguration parent)) steps.



End System.

(** ** The overwriting deep mix

    [objects.mixin(destination, source, true)] on option values; its
    code is in [vs/base/common/objects], not in the two files embedded
    here.  For every key of the source: when the destination has the key
    and both values are objects, the source value is mixed into the
    destination value; in every other case the destination gets the
    source value for the key.  Keys the source lacks are left alone. *)

(** One key: destination value and source value, each possibly missing. *)
Definition mix_option {A : Type} (f : A → A → A) (d s : option A) : option A :=
  match d, s with
  | Some x, Some y => Some (f x y)
  | Some x, None => Some x
  | None, s => s
  end.

(** All keys of two objects. *)
Definition mix_fields {A : Type} (f : A → A → A) (d s : gmap string A)
    : gmap string A :=
  merge (mix_option f) d s.

(** Two values under the same key: objects are mixed, anything else is
    replaced by the source value. *)
Definition mix_value {P A : Type} (g : A → A → A) (d s : P + A) : P + A :=
  match d, s with
  | inr x, inr y => inr (g x y)
  | _, _ => s
  end.

(** An option value nested at most [depth] objects deep: a plain value
    ([None] is [undefined]) or an object of values one level less deep. *)
Fixpoint Setting (depth : nat) : Type :=
  match depth with
  | 0 => option string
  | S d => (option string + gmap string (Setting d))%type
  end.

Fixpoint mix_setting (depth : nat) : Setting depth → Setting depth → Setting depth :=
  match depth with
  | 0 => λ _ s, s
  | S d => mix_value (mix_fields (mix_setting d))
  end.

(** Editor options whose values nest at most [depth] objects deep, with
    the deep mix. *)
Definition deep_options (depth : nat) : Options :=
  {| IEditorOptions := gmap string (Setting depth);
     mixin := mix_fields (mix_setting depth) |}.

(** ** Options to run the code on: values one object deep, and an
    editor that is nothing but its raw options. *)
Module Demo.

#[export] Instance options : Options := deep_options 1.

#[export] Instance editor : EditorBase (gmap string (Setting 1)) := {|
  base_new o := o;
  base_updateOptions o e := mixin e o;
  getRawConfiguration e := e;
|}.

Definition plain (v : string) : Setting 1 := inl (Some v).
Definition undefined : Setting 1 := inl None.
Definition object (fields : gmap string (option string)) : Setting 1 := inr fields.

Definition parent0 : gmap string (Setting 1) :=
  {[ "wordWrap" := plain "off"; "fontSize" := plain "12";
     "minimap" := object {[ "enabled" := Some "false" ]} ]}.

Definition overwrite0 : gmap string (Setting 1) := {[ "wordWrap" := plain "on" ]}.

(** The widget gets a second overwrite, then the parent changes two
    options, one of them overwritten in the widget. *)
Definition steps0 : list Step :=
  [ WidgetUpdateOptions {[ "minimap" := object {[ "side" := Some "left" ]} ]};
    ParentUpdateOptions {[ "wordWrap" := plain "bounded"; "fontSize" := plain "14" ]} ].




Definition widget0 : Embedded (gmap string (Setting 1)) := construct overwrite0 parent0.

End Demo.

(** ** Properties *)

(** *** The deep mix has the laws *)

Lemma option_laws {A : Type} (f : A → A → A) : MixLaws f → MixLaws (mix_option f).
Proof.
  intros L. split.
  - intros [a|]; cbn; [by rewrite mix_idemp|done].
  - intros [a|] [b|]; cbn; by rewrite ?mix_last_wins, ?mix_idemp.
  - intros [a|] [b|]; cbn; by rewrite ?mix_on_top, ?mix_idemp.
  - intros [a|] [b|]; cbn; by rewrite ?mix_under, ?mix_idemp.
  - intros [a|] [b|] [c|]; cbn;
      by rewrite ?mix_absorbs, ?mix_last_wins, ?mix_on_top, ?mix_idemp.
  - intros [a|] [b|] [c|]; cbn;
      by rewrite ?mix_continues, ?mix_under, ?mix_on_top, ?mix_idemp.
  - intros [e|] [q|] [o|] [n|]; cbn; intros H1 H2; try done;
      repeat match goal with H : Some _ = Some _ |- _ => injection H as H end;
      f_equal; try (by apply mix_resync); try congruence.
    assert (e = o) as -> by congruence. apply mix_under.
Qed.

Lemma lookup_mix_fields {A : Type} (f : A → A → A) (d s : gmap string A) i :
  mix_fields f d s !! i = mix_option f (d !! i) (s !! i).
Proof. unfold mix_fields. rewrite lookup_merge. by destruct (d !! i), (s !! i). Qed.

Lemma fields_laws {A : Type} (f : A → A → A) : MixLaws f → MixLaws (mix_fields f).
Proof.
  intros L. pose proof (option_laws f L) as LO. split.
  - intros a. apply map_eq; intros i. rewrite !lookup_mix_fields. apply mix_idemp.
  - intros a b. apply map_eq; intros i. rewrite !lookup_mix_fields.
    apply mix_last_wins.
  - intros a b. apply map_eq; intros i. rewrite !lookup_mix_fields. apply mix_on_top.
  - intros a b. apply map_eq; intros i. rewrite !lookup_mix_fields. apply mix_under.
  - intros a b c. apply map_eq; intros i. rewrite !lookup_mix_fields.
    apply mix_absorbs.
  - intros a b c. apply map_eq; intros i. rewrite !lookup_mix_fields.
    apply mix_continues.
  - intros e q o n H1 H2. apply map_eq; intros i. rewrite !lookup_mix_fields.
    apply mix_resync.
    + by rewrite <- lookup_mix_fields, H1.
    + by rewrite <- !lookup_mix_fields, H2.
Qed.

Lemma value_laws {P A : Type} (g : A → A → A) :
  MixLaws g → MixLaws (mix_value (P := P) g).
Proof.
  intros L. split.
  - intros [p|a]; cbn; [done|by rewrite mix_idemp].
  - intros [p|a] [p'|b]; cbn; by rewrite ?mix_last_wins, ?mix_idemp.
  - intros [p|a] [p'|b]; cbn; by rewrite ?mix_on_top, ?mix_idemp.
  - intros [p|a] [p'|b]; cbn; by rewrite ?mix_under, ?mix_idemp.
  - intros [p|a] [p'|b] [p''|c]; cbn;
      by rewrite ?mix_absorbs, ?mix_last_wins, ?mix_on_top, ?mix_idemp.
  - intros [p|a] [p'|b] [p''|c]; cbn;
      by rewrite ?mix_continues, ?mix_under, ?mix_on_top, ?mix_idemp.
  - intros [pe|e] [pq|q] [po|o] [pn|n]; cbn; intros H1 H2; try done;
      repeat match goal with
             | H : inr _ = inr _ |- _ => injection H as H
             | H : inl _ = inl _ |- _ => injection H as H
             end;
      f_equal; try (by apply mix_resync); try congruence.
Qed.

Lemma setting_laws depth : MixLaws (mix_setting depth).
Proof.
  induction depth as [|d IH]; cbn.
  - by split.
  - by apply value_laws, fields_laws.
Qed.

(** The deep mix satisfies the contract, at every nesting depth. *)
Lemma deep_options_laws depth : OptionsLaws (deep_options depth).
Proof. apply fields_laws, setting_laws. Qed.

(** *** The widgets *)

Section Properties.
Context {O : Options} {OL : OptionsLaws O}.



Section OneBase.
Context {Parent E : Type} `{!EditorBase Parent} `{!EditorBase E}.
Context {PL : EditorBaseLaws Parent} {EL : EditorBaseLaws E}.
Implicit Types (s : Parent * Embedded E) (w : Embedded E) (parent : Parent).

Lemma effective_construct options parentRaw :
  effective (construct (E := E) options parentRaw) = mixin parentRaw options.
Proof. unfold effective, construct; cbn. by rewrite raw_updateOptions, raw_new. Qed.

Lemma effective_updateOptions n w :
  effective (updateOptions n w) =
    mixin (effective w) (mixin (_overwriteOptions w) n).
Proof. unfold effective, updateOptions; cbn. by rewrite raw_updateOptions. Qed.

(** Whatever the parent answers, the handler mixes it over what is in
    effect and the overwrite set over that. *)
Lemma effective_onParentConfigurationChanged parentRaw w :
  effective (_onParentConfigurationChanged parentRaw w) =
    mixin (mixin (effective w) parentRaw) (_overwriteOptions w).
Proof.
  unfold effective, _onParentConfigurationChanged; cbn.
  by rewrite !raw_updateOptions.
Qed.

Lemma on_top x ow : mixin (mixin x ow) ow = mixin x ow.
Proof using OL. apply mix_on_top. Qed.







End OneBase.

Context {Parent CodeEditor DiffEditorWidget : Type}.
Context `{!EditorBase Parent} `{!EditorBase CodeEditor} `{!EditorBase DiffEditorWidget}.
Context {PL : EditorBaseLaws Parent} {CL : EditorBaseLaws CodeEditor}
        {DL : EditorBaseLaws DiffEditorWidget}.


End Properties.

(** ** How the widget's operations compose *)

Section Composition.
Context {O : Options} {OL : OptionsLaws O}.
Context {E : Type} `{!EditorBase E} {EL : EditorBaseLaws E}.
Implicit Types (w : Embedded E).

(** On a widget whose overwrite set is on top of the options in effect
    (as it is after every operation), [updateOptions] leaves the options
    that were in effect with the new options mixed over them; calling it
    again with the same options changes neither the overwrite set nor the
    options in effect. *)
Theorem updateOptions_mixes_over_effective n w :
  (mixin (effective w) (_overwriteOptions w) = effective w →
   effective (updateOptions n w) = mixin (effective w) n) ∧
  _overwriteOptions (updateOptions n (updateOptions n w)) =
    _overwriteOptions (updateOptions n w) ∧
  effective (updateOptions n (updateOptions n w)) =
    effective (updateOptions n w).
Proof using OL EL.
  split; [|split].
  - intros Htop. rewrite effective_updateOptions.
    transitivity (mixin (mixin (effective w) (_overwriteOptions w))
                    (mixin (_overwriteOptions w) n)); [by rewrite Htop|].
    by rewrite mix_continues, Htop.
  - cbn. apply mix_on_top.
  - rewrite !effective_updateOptions. cbn.
    by rewrite (mix_on_top (_overwriteOptions w) n), mix_on_top.
Qed.

(** A configuration-change event of the parent that comes again with the
    same raw configuration changes nothing: the options in effect and the
    overwrite set are what the first event left. *)
Theorem repeated_parent_event_changes_nothing parentRaw w :
  _overwriteOptions (_onParentConfigurationChanged parentRaw
                       (_onParentConfigurationChanged parentRaw w)) =
    _overwriteOptions (_onParentConfigurationChanged parentRaw w) ∧
  effective (_onParentConfigurationChanged parentRaw
               (_onParentConfigurationChanged parentRaw w)) =
    effective (_onParentConfigurationChanged parentRaw w).
Proof using OL EL.
  split; [done|].
  rewrite !effective_onParentConfigurationChanged. cbn.
  by rewrite (mix_absorbs (effective w) parentRaw (_overwriteOptions w)), mix_absorbs.
Qed.

(** After the constructor, after [updateOptions] and after the parent's
    event handler, each run on any widget and with whatever the parent
    answers, the stored overwrite set is on top of the options in effect:
    mixing it in again changes nothing. *)
Theorem overwrite_on_top_after_each_operation options parentRaw newOptions w :
  (let w' := construct (E := E) options parentRaw in
   mixin (effective w') (_overwriteOptions w') = effective w') ∧
  (let w' := updateOptions newOptions w in
   mixin (effective w') (_overwriteOptions w') = effective w') ∧
  (let w' := _onParentConfigurationChanged parentRaw w in
   mixin (effective w') (_overwriteOptions w') = effective w').
Proof using OL EL.
  split; [|split]; cbn zeta.
  - rewrite effective_construct. apply on_top.
  - rewrite effective_updateOptions. apply on_top.
  - rewrite effective_onParentConfigurationChanged. apply on_top.
Qed.

End Composition.

Import Demo.

#[export] Instance demo_options_laws : OptionsLaws options.
Proof. apply deep_options_laws. Qed.

#[export] Instance demo_editor_laws : EditorBaseLaws (gmap string (Setting 1)).
Proof. by split. Qed.



(** The run of the demo: the overwritten [wordWrap] stays, the parent's
    new [fontSize] comes through, and the two [minimap] objects mix. *)
Example overlay_runs :
  let s := run (E := gmap string (Setting 1)) parent0 overwrite0 steps0 in
  effective s.2 !! "wordWrap" = Some (plain "on") ∧
  effective s.2 !! "fontSize" = Some (plain "14") ∧
  effective s.2 !! "minimap"
    = Some (object {[ "enabled" := Some "false"; "side" := Some "left" ]}).
Proof.
  cbn zeta. split; [|split]; vm_compute; reflexivity.
Qed.

Lemma updateOptions_mixes_over_effective_witness :
  effective (updateOptions {[ "minimap" := object {[ "side" := Some "left" ]} ]} widget0)
  = mixin (effective widget0) {[ "minimap" := object {[ "side" := Some "left" ]} ]}.
Proof.
  apply (updateOptions_mixes_over_effective (E := gmap string (Setting 1))).
  unfold widget0. rewrite effective_construct. apply mix_on_top.
Defined.

Lemma repeated_parent_event_changes_nothing_witness :
  effective (_onParentConfigurationChanged {[ "wordWrap" := plain "bounded" ]}
               (_onParentConfigurationChanged {[ "wordWrap" := plain "bounded" ]} widget0))
  = effective (_onParentConfigurationChanged {[ "wordWrap" := plain "bounded" ]} widget0).
Proof.
  exact (proj2 (repeated_parent_event_changes_nothing (E := gmap string (Setting 1))
                  {[ "wordWrap" := plain "bounded" ]} widget0)).
Defined.

Lemma overwrite_on_top_after_each_operation_witness :
  let w' := _onParentConfigurationChanged
              ({[ "wordWrap" := plain "bounded" ]} : gmap string (Setting 1)) widget0 in
  mixin (effective w') (_overwriteOptions w') = effective w'.
Proof.
  exact (proj2 (proj2 (overwrite_on_top_after_each_operation
                         (E := gmap string (Setting 1)) overwrite0
                         {[ "wordWrap" := plain "bounded" ]}
                         {[ "minimap" := undefined ]} widget0))).
Defined.

End EmbeddedEditor.
